(** * subtitles-generator: the segment grouper of [transcriber.py]

    A shallow embedding of [AudioTranscriber.process_transcription] and of
    the two per-segment helpers it dispatches to, followed by the properties
    of the grouping pass.

    Modelling conventions.
    - A Python [str] is the list of its code points, so that [len] is
      [length] and [str.strip] removes exactly the code points for which
      [str.isspace] holds.
    - A Python [dict] with a fixed set of string keys is a record of
      optional fields: [None] is "key absent".  [d[k]] is [getitem],
      [d.get(k, v)] is [get] and [k in d] is a match on the field.
    - Exceptions are values of an error monad; an exception raised in any
      iteration aborts the whole call.
    - Time stamps (Python floats, in seconds) are rationals;
      [timedelta_seconds x] is the value of [timedelta(seconds=x)] when the
      call returns: [x] rounded to whole microseconds, half to even.
    - Python integers are [Z].

    The pass is embedded twice.  The records [Word] and [Segment] are typed:
    under "start" and "end" they hold numbers only, and the typed pass
    converts every number.  The module [Raw] follows the source further:
    "start" and "end" may be bound to [None], which the source stores in
    [start_time] and [end_time], tests with [is not None] and passes to
    [timedelta], and [timedelta] raises [OverflowError] outside its range of
    999999999 days.  On typed results whose numbers are in that range the
    two agree ([raw_process_transcription]).  Not-a-number and infinite
    floats, and values of other types, are outside both. *)

From Stdlib Require Import List ZArith NArith QArith Lia Bool String Ascii.
From Stdlib Require Import Sorted.
Import ListNotations.
Open Scope Z_scope.

(** ** Exceptions *)

Inductive exn : Type :=
| KeyError (key : string)
| TypeError
| OverflowError.

Inductive outcome (A : Type) : Type :=
| Ok (a : A)
| Raise (e : exn).
Arguments Ok {A} a.
Arguments Raise {A} e.

Definition bind {A B : Type} (m : outcome A) (k : A -> outcome B) : outcome B :=
  match m with
  | Ok a => k a
  | Raise e => Raise e
  end.

Notation "x <- m ;; k" := (bind m (fun x => k))
  (at level 61, m at next level, right associativity).
Notation "' pat <- m ;; k" := (bind m (fun x => match x with pat => k end))
  (at level 61, pat pattern, m at next level, right associativity).

(** ** Dictionaries with a fixed key set *)

(** [d[key]]: the value, or [KeyError]. *)
Definition getitem {A : Type} (key : string) (field : option A) : outcome A :=
  match field with
  | Some v => Ok v
  | None => Raise (KeyError key)
  end.

(** [d.get(key, default)]. *)
Definition get {A : Type} (field : option A) (default : A) : A :=
  match field with
  | Some v => v
  | None => default
  end.

(** ** Strings *)

Definition char : Type := N.
Definition str : Type := list char.

(** The ASCII literal [s] as a [str]. *)
Definition py (s : string) : str := map N_of_ascii (list_ascii_of_string s).

(** [str.isspace] on one code point: the Unicode white space of CPython. *)
Definition isspace (c : char) : bool :=
  ((9 <=? c) && (c <=? 13) || (28 <=? c) && (c <=? 32)
   || (c =? 133) || (c =? 160) || (c =? 5760)
   || (8192 <=? c) && (c <=? 8202)
   || (c =? 8232) || (c =? 8233) || (c =? 8239) || (c =? 8287)
   || (c =? 12288))%N.

Fixpoint lstrip (s : str) : str :=
  match s with
  | [] => []
  | c :: s' => if isspace c then lstrip s' else s
  end.

Definition rstrip (s : str) : str := rev (lstrip (rev s)).

(** [s.strip()]. *)
Definition strip (s : str) : str := rstrip (lstrip s).

(** Truthiness of a string: [if s]. *)
Definition truthy (s : str) : bool :=
  match s with
  | [] => false
  | _ :: _ => true
  end.

(** [len(s)]. *)
Definition len (s : str) : Z := Z.of_nat (List.length s).

Definition space : char := 32%N.

(** [sep.join(l)]. *)
Fixpoint join (sep : str) (l : list str) : str :=
  match l with
  | [] => []
  | [x] => x
  | x :: rest => x ++ sep ++ join sep rest
  end.

(** [s.split()]: the maximal runs of non-space code points, in order. *)
Fixpoint split (s : str) : list str :=
  match s with
  | [] => []
  | c :: s' =>
      if isspace c then split s'
      else match s' with
           | [] => [[c]]
           | c' :: _ =>
               if isspace c' then [c] :: split s'
               else match split s' with
                    | t :: ts => (c :: t) :: ts
                    | [] => [[c]]
                    end
           end
  end.

(** White-space normalisation: [" ".join(s.split())]. *)
Definition normalize (s : str) : str := join [space] (split s).

(** ** Durations *)

(** A [datetime.timedelta], as its total number of microseconds. *)
Record timedelta : Type := mk_timedelta { total_microseconds : Z }.

(** Rounding of the rational [n/d] to an integer, ties to even. *)
Definition round_half_even (q : Q) : Z :=
  let n := Qnum q in
  let d := Zpos (Qden q) in
  let f := n / d in
  let r2 := 2 * (n mod d) in
  if r2 <? d then f
  else if d <? r2 then f + 1
  else if Z.even f then f else f + 1.

(** The value of [timedelta(seconds=x)] when the call returns.  The call
    itself, with its range check, is [Raw.timedelta_of]. *)
Definition timedelta_seconds (x : Q) : timedelta :=
  mk_timedelta (round_half_even (x * (1000000 # 1))).

(** [timedelta(0)]. *)
Definition timedelta_zero : timedelta := mk_timedelta 0.

(** [timedelta(seconds=x)] for a variable that may hold [None]. *)
Definition timedelta_of (x : option Q) : outcome timedelta :=
  match x with
  | Some v => Ok (timedelta_seconds v)
  | None => Raise TypeError
  end.

Definition td_le (a b : timedelta) : Prop :=
  total_microseconds a <= total_microseconds b.

(** ** Input and output data *)

(** A word dictionary of the transcription provider, typed: "start" and
    "end", when present, hold numbers.  [Raw.Word] also admits [None]. *)
Record Word : Type := mk_word {
  w_text : option str;
  w_start : option Q;
  w_end : option Q
}.

(** A segment dictionary: the keys the grouper looks at. *)
Record Segment : Type := mk_segment {
  seg_words : option (list Word);
  seg_start : option Q;
  seg_end : option Q;
  seg_text : option str
}.

(** The transcription result dictionary. *)
Record Transcription : Type := mk_transcription {
  segments : option (list Segment)
}.

Module srt.

(** An [srt.Subtitle]: the fields the grouper sets. *)
Record Subtitle : Type := mk {
  index : Z;
  start : timedelta;
  end_ : timedelta;
  content : str
}.

End srt.

(** ** The transcriber *)

Record AudioTranscriber : Type := mk_transcriber {
  model_name : string;
  language : string;
  min_chars : Z
}.

(** The local variables of the loop of [_process_segment_with_words]. *)
Record locals : Type := mk_locals {
  subtitles : list srt.Subtitle;
  accumulated_text : str;
  start_time : option Q;
  end_time : option Q;
  index : Z
}.

(** One iteration of [for word_info in segment["words"]]. *)
Definition word_body (self : AudioTranscriber) (st : locals) (word_info : Word)
  : outcome locals :=
  let text := strip (get (w_text word_info) []) in
  if negb (truthy text) then Ok st
  else
    start_time' <-
      (if negb (truthy (accumulated_text st))
       then (s <- getitem "start" (w_start word_info) ;; Ok (Some s))
       else Ok (start_time st)) ;;
    let accumulated_text' :=
      if truthy (accumulated_text st)
      then accumulated_text st ++ [space] ++ text
      else text in
    e <- getitem "end" (w_end word_info) ;;
    let end_time' := Some e in
    if len accumulated_text' >=? min_chars self then
      start_td <- timedelta_of start_time' ;;
      end_td <- timedelta_of end_time' ;;
      Ok {| subtitles :=
              subtitles st
              ++ [srt.mk (index st) start_td end_td accumulated_text'];
            accumulated_text := [];
            start_time := None;
            end_time := None;
            index := index st + 1 |}
    else
      Ok {| subtitles := subtitles st;
            accumulated_text := accumulated_text';
            start_time := start_time';
            end_time := end_time';
            index := index st |}.

Fixpoint words_loop (self : AudioTranscriber) (words : list Word) (st : locals)
  : outcome locals :=
  match words with
  | [] => Ok st
  | word_info :: rest =>
      st' <- word_body self st word_info ;;
      words_loop self rest st'
  end.

Definition initial_locals (start_index : Z) : locals :=
  {| subtitles := [];
     accumulated_text := [];
     start_time := None;
     end_time := None;
     index := start_index |}.

(** The code after the loop: the trailing block, and the returned pair. *)
Definition trailing_block (st : locals) : list srt.Subtitle * Z :=
  if truthy (accumulated_text st) then
    let start_td :=
      match start_time st with
      | Some s => timedelta_seconds s
      | None => timedelta_zero
      end in
    let end_td :=
      match end_time st with
      | Some e => timedelta_seconds e
      | None => timedelta_zero
      end in
    (subtitles st ++ [srt.mk (index st) start_td end_td (accumulated_text st)],
     index st + 1)
  else (subtitles st, index st).

Definition _process_segment_with_words
  (self : AudioTranscriber) (segment : Segment) (start_index : Z)
  : outcome (list srt.Subtitle * Z) :=
  words <- getitem "words" (seg_words segment) ;;
  st <- words_loop self words (initial_locals start_index) ;;
  Ok (trailing_block st).

Definition _process_segment_without_words
  (self : AudioTranscriber) (segment : Segment) (index : Z)
  : outcome srt.Subtitle :=
  s <- getitem "start" (seg_start segment) ;;
  let start := timedelta_seconds s in
  e <- getitem "end" (seg_end segment) ;;
  let end_ := timedelta_seconds e in
  let content := strip (get (seg_text segment) []) in
  Ok (srt.mk index start end_ content).

(** The loop of [process_transcription] over the remaining segments. *)
Fixpoint segments_loop (self : AudioTranscriber) (segs : list Segment)
  (subtitles : list srt.Subtitle) (index : Z) : outcome (list srt.Subtitle) :=
  match segs with
  | [] => Ok subtitles
  | segment :: rest =>
      match seg_words segment with
      | Some _ =>
          '(segment_subtitles, index') <-
            _process_segment_with_words self segment index ;;
          segments_loop self rest (subtitles ++ segment_subtitles) index'
      | None =>
          subtitle <- _process_segment_without_words self segment index ;;
          segments_loop self rest (subtitles ++ [subtitle]) (index + 1)
      end
  end.

Definition process_transcription (self : AudioTranscriber)
  (result : Transcription) : outcome (list srt.Subtitle) :=
  segments_loop self (get (segments result) []) [] 1.

(** * Vocabulary of the properties *)

(** ** Segments and groups *)

(** The words the loop does not skip: their trimmed text is non-empty. *)
Definition used (w : Word) : bool := truthy (strip (get (w_text w) [])).

(** [key in d]. *)
Definition has_key {A : Type} (field : option A) : bool :=
  match field with
  | Some _ => true
  | None => false
  end.

(** What one segment contributes: its blocks and the index after it. *)
Definition segment_blocks (self : AudioTranscriber) (segment : Segment)
  (index : Z) : outcome (list srt.Subtitle * Z) :=
  match seg_words segment with
  | Some _ => _process_segment_with_words self segment index
  | None =>
      subtitle <- _process_segment_without_words self segment index ;;
      Ok ([subtitle], index + 1)
  end.

(** The output of the pass, kept apart segment by segment. *)
Fixpoint grouped (self : AudioTranscriber) (segs : list Segment) (index : Z)
  : outcome (list (Segment * list srt.Subtitle)) :=
  match segs with
  | [] => Ok []
  | segment :: rest =>
      '(bs, index') <- segment_blocks self segment index ;;
      groups <- grouped self rest index' ;;
      Ok ((segment, bs) :: groups)
  end.

Definition blocks_of (groups : list (Segment * list srt.Subtitle))
  : list srt.Subtitle :=
  List.concat (map snd groups).

(** [segment] with its word list replaced. *)
Definition with_words (segment : Segment) (ws : list Word) : Segment :=
  {| seg_words := Some ws;
     seg_start := seg_start segment;
     seg_end := seg_end segment;
     seg_text := seg_text segment |}.

(** A word-level segment that has nothing but its words. *)
Definition word_segment (ws : list Word) : Segment :=
  {| seg_words := Some ws; seg_start := None; seg_end := None;
     seg_text := None |}.

(** ** One iteration of the accumulation loop *)

(** The values the iteration on a word it does not skip gives to
    [accumulated_text] and [start_time] before the length test. *)
Definition next_text (st : locals) (w : Word) : str :=
  if truthy (accumulated_text st)
  then accumulated_text st ++ [space] ++ strip (get (w_text w) [])
  else strip (get (w_text w) []).

Definition next_start (st : locals) (w : Word) : option Q :=
  if truthy (accumulated_text st) then start_time st else w_start w.

(** The accumulator after such an iteration. *)
Definition text_after (self : AudioTranscriber) (st : locals) (w : Word)
  : str :=
  if len (next_text st w) >=? min_chars self then [] else next_text st w.

(** The two ways such an iteration ends. *)
Definition flushed (st : locals) (w : Word) (s e : Q) : locals :=
  {| subtitles :=
       subtitles st
       ++ [srt.mk (index st) (timedelta_seconds s) (timedelta_seconds e)
             (next_text st w)];
     accumulated_text := [];
     start_time := None;
     end_time := None;
     index := index st + 1 |}.

Definition kept (st : locals) (w : Word) (e : Q) : locals :=
  {| subtitles := subtitles st;
     accumulated_text := next_text st w;
     start_time := next_start st w;
     end_time := Some e;
     index := index st |}.

(** ** Indices *)

(** The integers [i, i+1, ..., i+n-1]. *)
Fixpoint indices_from (i : Z) (n : nat) : list Z :=
  match n with
  | O => []
  | S n' => i :: indices_from (i + 1) n'
  end.

(** The blocks of [st] are numbered from [i0] and [index st] is the next
    free number. *)
Definition numbered (i0 : Z) (st : locals) : Prop :=
  map srt.index (subtitles st)
  = indices_from i0 (List.length (subtitles st))
  /\ index st = i0 + Z.of_nat (List.length (subtitles st)).

(** ** Threshold and content *)

Definition long_enough (self : AudioTranscriber) (b : srt.Subtitle) : Prop :=
  min_chars self <= len (srt.content b).

(** The threshold property as the specification words it, the flat blocks
    included: every block but the last one of a word-level segment reaches
    [min_chars]. *)
Definition threshold_everywhere (self : AudioTranscriber)
  (groups : list (Segment * list srt.Subtitle)) : Prop :=
  forall segment bs, In (segment, bs) groups ->
    match seg_words segment with
    | Some _ => Forall (long_enough self) (removelast bs)
    | None => Forall (long_enough self) bs
    end.

(** The threshold property of the word-level segments alone. *)
Definition threshold_in_word_segments (self : AudioTranscriber)
  (groups : list (Segment * list srt.Subtitle)) : Prop :=
  forall segment bs, In (segment, bs) groups ->
    seg_words segment <> None ->
    Forall (long_enough self) (removelast bs).

Definition nonempty_content (b : srt.Subtitle) : Prop := srt.content b <> [].

(** What the pass guarantees about the content of the blocks of a group. *)
Definition content_by_kind (segment : Segment) (bs : list srt.Subtitle)
  : Prop :=
  match seg_words segment with
  | Some _ => Forall nonempty_content bs
  | None =>
      exists b, bs = [b]
        /\ srt.content b = strip (get (seg_text segment) [])
        /\ (srt.content b = [] <->
            forallb isspace (get (seg_text segment) []) = true)
  end.

(** The texts a segment feeds into the pass, in order. *)
Definition segment_texts (segment : Segment) : list str :=
  match seg_words segment with
  | Some ws => map (fun w => get (w_text w) []) (filter used ws)
  | None => [get (seg_text segment) []]
  end.

Definition source_texts (result : Transcription) : list str :=
  flat_map segment_texts (get (segments result) []).

(** The white-space separated runs held by [st]: those of its blocks, then
    those of the accumulator. *)
Definition tokens_of (st : locals) : list str :=
  flat_map split (map srt.content (subtitles st))
  ++ split (accumulated_text st).

(** ** Timing *)

(** The start times carried by the words the loop does not skip. *)
Fixpoint used_starts (ws : list Word) : list Q :=
  match ws with
  | [] => []
  | w :: rest =>
      match w_start w with
      | Some s => if used w then s :: used_starts rest else used_starts rest
      | None => used_starts rest
      end
  end.


Definition end_of_word (ws : list Word) (t : timedelta) : Prop :=
  exists w e, In w ws /\ used w = true /\ w_end w = Some e
              /\ t = timedelta_seconds e.



(** The invariant of the accumulation loop. *)
Definition accumulator_invariant (st : locals) : Prop :=
  (accumulated_text st <> [] <-> start_time st <> None)
  /\ (accumulated_text st <> [] -> end_time st <> None).

(** ** Absent keys *)

(** Well-formed input: every word and every flat segment has the keys
    "start" and "end". *)
Definition word_well_formed (w : Word) : bool :=
  has_key (w_start w) && has_key (w_end w).

Definition segment_well_formed (segment : Segment) : bool :=
  match seg_words segment with
  | Some ws => forallb word_well_formed ws
  | None => has_key (seg_start segment) && has_key (seg_end segment)
  end.

Definition well_formed (result : Transcription) : bool :=
  forallb segment_well_formed (get (segments result) []).

(** The loop of [_process_segment_with_words], started with the accumulator
    [acc], reads an absent key: "end" of a word it does not skip, or
    "start" of such a word while the accumulator is empty.  Only the text
    of the words decides which keys are read. *)
Fixpoint reads_missing_key (self : AudioTranscriber) (acc : str)
  (ws : list Word) : bool :=
  match ws with
  | [] => false
  | w :: rest =>
      if negb (used w) then reads_missing_key self acc rest
      else if negb (truthy acc) && negb (has_key (w_start w)) then true
      else if negb (has_key (w_end w)) then true
      else
        let text := strip (get (w_text w) []) in
        let acc' := if truthy acc then acc ++ [space] ++ text else text in
        reads_missing_key self
          (if len acc' >=? min_chars self then [] else acc') rest
  end.

Definition segment_reads_missing_key (self : AudioTranscriber)
  (segment : Segment) : bool :=
  match seg_words segment with
  | Some ws => reads_missing_key self [] ws
  | None => negb (has_key (seg_start segment) && has_key (seg_end segment))
  end.

Definition result_reads_missing_key (self : AudioTranscriber)
  (result : Transcription) : bool :=
  existsb (segment_reads_missing_key self) (get (segments result) []).

(** ** Scenario data *)

Definition transcriber (n : Z) : AudioTranscriber :=
  {| model_name := "base"; language := "en"; min_chars := n |}.

Definition word (text : string) (s e : Q) : Word :=
  {| w_text := Some (py text); w_start := Some s; w_end := Some e |}.

(** A word without the key "start". *)
Definition no_start (text : string) (e : Q) : Word :=
  {| w_text := Some (py text); w_start := None; w_end := Some e |}.

Definition flat_segment (s e : Q) (text : string) : Segment :=
  {| seg_words := None; seg_start := Some s; seg_end := Some e;
     seg_text := Some (py text) |}.

Definition block (i : Z) (s e : Q) (text : string) : srt.Subtitle :=
  srt.mk i (timedelta_seconds s) (timedelta_seconds e) (py text).

Definition hi_there_friend : Segment :=
  word_segment
    [word "Hi" 0.0 0.5; word "there" 0.5 1.0; word "friend" 1.0 1.6].

Definition only_flat (text : string) : Transcription :=
  {| segments := Some [flat_segment 0.0 1.0 text] |}.


Definition hi_there_without_start : Transcription :=
  {| segments :=
       Some [word_segment [word "Hi" 0.0 0.5; no_start "there" 1.0]] |}.

(** * Vocabulary of the further properties *)

(** The trimmed text of a word, as the loop appends it. *)
Definition word_text (w : Word) : str := strip (get (w_text w) []).

(** [b] is the block of the run of words [g]: their trimmed texts joined
    by single spaces, from the start of the first to the end of the last. *)
Definition block_of_group (b : srt.Subtitle) (g : list Word) : Prop :=
  srt.content b = join [space] (map word_text g)
  /\ (exists w0 rest s,
        g = w0 :: rest /\ w_start w0 = Some s
        /\ srt.start b = timedelta_seconds s)
  /\ (exists front wl e,
        g = front ++ [wl] /\ w_end wl = Some e
        /\ srt.end_ b = timedelta_seconds e).

(** A run of words is cut as early as the threshold allows: without its
    last word it is below [min_chars]. *)
Definition greedy (self : AudioTranscriber) (g : list Word) : Prop :=
  removelast g = []
  \/ len (join [space] (map word_text (removelast g))) < min_chars self.

(** The variables of the loop after the words [pre]: the blocks are those
    of the runs [groups], and the accumulator, with its times, holds the
    run [cur]. *)
Definition grouping (self : AudioTranscriber) (pre : list Word) (st : locals)
  (groups : list (list Word)) (cur : list Word) : Prop :=
  List.concat groups ++ cur = filter used pre
  /\ Forall2 block_of_group (subtitles st) groups
  /\ Forall (greedy self) groups
  /\ Forall (fun g => min_chars self <= len (join [space] (map word_text g)))
       groups
  /\ accumulated_text st = join [space] (map word_text cur)
  /\ greedy self (cur)
  /\ (cur = [] \/ len (join [space] (map word_text cur)) < min_chars self)
  /\ Forall (fun w => used w = true) cur
  /\ (cur <> [] ->
      (exists w0 rest s,
          cur = w0 :: rest /\ w_start w0 = Some s /\ start_time st = Some s)
      /\ (exists front wl e,
            cur = front ++ [wl] /\ w_end wl = Some e
            /\ end_time st = Some e)).

Definition grouping_invariant (self : AudioTranscriber) (pre : list Word)
  (st : locals) : Prop :=
  exists groups cur, grouping self pre st groups cur.

(** [b] is the block of the single word [w]. *)
Definition block_of_word (b : srt.Subtitle) (w : Word) : Prop :=
  srt.content b = word_text w
  /\ (exists s, w_start w = Some s /\ srt.start b = timedelta_seconds s)
  /\ (exists e, w_end w = Some e /\ srt.end_ b = timedelta_seconds e).

(** A string that [strip] leaves as it is. *)
Definition trimmed (s : str) : Prop := lstrip s = s /\ rstrip s = s.

(** A start time is recorded whenever the accumulator holds text. *)
Definition keeps_start (st : locals) : Prop :=
  accumulated_text st <> [] -> start_time st <> None.

(** A word the loop does not skip has both times, in order. *)
Definition timed (w : Word) : Prop :=
  used w = true ->
  exists s e, w_start w = Some s /\ w_end w = Some e /\ (s <= e)%Q.

Definition ends_after_start (b : srt.Subtitle) : Prop :=
  td_le (srt.start b) (srt.end_ b).

(** Renumbering: [d] added to an index. *)
Definition shift_index (d : Z) (b : srt.Subtitle) : srt.Subtitle :=
  srt.mk (srt.index b + d) (srt.start b) (srt.end_ b) (srt.content b).

Definition shift_locals (d : Z) (st : locals) : locals :=
  {| subtitles := map (shift_index d) (subtitles st);
     accumulated_text := accumulated_text st;
     start_time := start_time st;
     end_time := end_time st;
     index := index st + d |}.

Definition shift_blocks (d : Z) (r : list srt.Subtitle * Z)
  : list srt.Subtitle * Z :=
  (map (shift_index d) (fst r), snd r + d).

Definition map_outcome {A B : Type} (f : A -> B) (m : outcome A) : outcome B :=
  match m with
  | Ok a => Ok (f a)
  | Raise e => Raise e
  end.

(** A word-level segment none of whose words is used. *)
Definition silent (segment : Segment) : Prop :=
  exists ws, seg_words segment = Some ws /\ filter used ws = [].

(** * The pass on raw time stamps *)

(** [MAX_DELTA_DAYS] of [datetime]. *)
Definition MAX_DELTA_DAYS : Z := 999999999.

Definition microseconds_per_day : Z := 86400000000.

(** The range check of [timedelta]: the number of whole days, rounded
    down, has a magnitude of at most [MAX_DELTA_DAYS]. *)
Definition representable (t : timedelta) : bool :=
  (- MAX_DELTA_DAYS <=? total_microseconds t / microseconds_per_day)
  && (total_microseconds t / microseconds_per_day <=? MAX_DELTA_DAYS).

Module Raw.

(** A word dictionary: "start" and "end" may be absent, bound to [None]
    or bound to a number. *)
Record Word : Type := mk_word {
  w_text : option str;
  w_start : option (option Q);
  w_end : option (option Q)
}.

Record Segment : Type := mk_segment {
  seg_words : option (list Word);
  seg_start : option (option Q);
  seg_end : option (option Q);
  seg_text : option str
}.

Record Transcription : Type := mk_transcription {
  segments : option (list Segment)
}.

(** The call [timedelta(seconds=x)]: [TypeError] on [None],
    [OverflowError] outside the range. *)
Definition timedelta_of (x : option Q) : outcome timedelta :=
  match x with
  | None => Raise TypeError
  | Some v =>
      if representable (timedelta_seconds v) then Ok (timedelta_seconds v)
      else Raise OverflowError
  end.

(** One iteration of [for word_info in segment["words"]]. *)
Definition word_body (self : AudioTranscriber) (st : locals) (word_info : Word)
  : outcome locals :=
  let text := strip (get (w_text word_info) []) in
  if negb (truthy text) then Ok st
  else
    start_time' <-
      (if negb (truthy (accumulated_text st))
       then getitem "start" (w_start word_info)
       else Ok (start_time st)) ;;
    let accumulated_text' :=
      if truthy (accumulated_text st)
      then accumulated_text st ++ [space] ++ text
      else text in
    end_time' <- getitem "end" (w_end word_info) ;;
    if len accumulated_text' >=? min_chars self then
      start_td <- timedelta_of start_time' ;;
      end_td <- timedelta_of end_time' ;;
      Ok {| subtitles :=
              subtitles st
              ++ [srt.mk (index st) start_td end_td accumulated_text'];
            accumulated_text := [];
            start_time := None;
            end_time := None;
            index := index st + 1 |}
    else
      Ok {| subtitles := subtitles st;
            accumulated_text := accumulated_text';
            start_time := start_time';
            end_time := end_time';
            index := index st |}.

Fixpoint words_loop (self : AudioTranscriber) (words : list Word) (st : locals)
  : outcome locals :=
  match words with
  | [] => Ok st
  | word_info :: rest =>
      st' <- word_body self st word_info ;;
      words_loop self rest st'
  end.

(** The code after the loop: [timedelta(seconds=...)] of a time that is
    not [None], [timedelta(0)] of one that is. *)
Definition trailing_block (st : locals) : outcome (list srt.Subtitle * Z) :=
  if truthy (accumulated_text st) then
    start_td <-
      match start_time st with
      | Some s => timedelta_of (Some s)
      | None => Ok timedelta_zero
      end ;;
    end_td <-
      match end_time st with
      | Some e => timedelta_of (Some e)
      | None => Ok timedelta_zero
      end ;;
    Ok (subtitles st
        ++ [srt.mk (index st) start_td end_td (accumulated_text st)],
        index st + 1)
  else Ok (subtitles st, index st).

Definition _process_segment_with_words
  (self : AudioTranscriber) (segment : Segment) (start_index : Z)
  : outcome (list srt.Subtitle * Z) :=
  words <- getitem "words" (seg_words segment) ;;
  st <- words_loop self words (initial_locals start_index) ;;
  trailing_block st.

Definition _process_segment_without_words
  (self : AudioTranscriber) (segment : Segment) (index : Z)
  : outcome srt.Subtitle :=
  s <- getitem "start" (seg_start segment) ;;
  start <- timedelta_of s ;;
  e <- getitem "end" (seg_end segment) ;;
  end_ <- timedelta_of e ;;
  let content := strip (get (seg_text segment) []) in
  Ok (srt.mk index start end_ content).

Fixpoint segments_loop (self : AudioTranscriber) (segs : list Segment)
  (subtitles : list srt.Subtitle) (index : Z) : outcome (list srt.Subtitle) :=
  match segs with
  | [] => Ok subtitles
  | segment :: rest =>
      match seg_words segment with
      | Some _ =>
          '(segment_subtitles, index') <-
            _process_segment_with_words self segment index ;;
          segments_loop self rest (subtitles ++ segment_subtitles) index'
      | None =>
          subtitle <- _process_segment_without_words self segment index ;;
          segments_loop self rest (subtitles ++ [subtitle]) (index + 1)
      end
  end.

Definition process_transcription (self : AudioTranscriber)
  (result : Transcription) : outcome (list srt.Subtitle) :=
  segments_loop self (get (segments result) []) [] 1.

(** The words the loop does not skip. *)
Definition used (w : Word) : bool := truthy (strip (get (w_text w) [])).

(** The values an iteration on such a word gives to [accumulated_text] and
    [start_time] before the length test. *)
Definition next_text (st : locals) (w : Word) : str :=
  if truthy (accumulated_text st)
  then accumulated_text st ++ [space] ++ strip (get (w_text w) [])
  else strip (get (w_text w) []).

Definition next_start (st : locals) (w : Word) : option Q :=
  if truthy (accumulated_text st) then start_time st
  else match w_start w with
       | Some v => v
       | None => None
       end.

(** The variables after an iteration that does not flush. *)
Definition kept (st : locals) (w : Word) (ev : option Q) : locals :=
  {| subtitles := subtitles st;
     accumulated_text := next_text st w;
     start_time := next_start st w;
     end_time := ev;
     index := index st |}.

(** Neither time of a word the loop does not skip is bound to [None]. *)
Definition numeric (w : Word) : Prop :=
  used w = true -> w_start w <> Some None /\ w_end w <> Some None.

(** The times held by [st] are numbers read from words among [pre] that
    the loop did not skip. *)
Definition times_from (pre : list Word) (st : locals) : Prop :=
  (forall s, start_time st = Some s ->
     exists w, In w pre /\ used w = true /\ w_start w = Some (Some s))
  /\ (forall e, end_time st = Some e ->
       exists w, In w pre /\ used w = true /\ w_end w = Some (Some e)).

(** Every key the well-formedness of the specification names is present,
    whatever it is bound to. *)
Definition word_well_formed (w : Word) : bool :=
  has_key (w_start w) && has_key (w_end w).

Definition segment_well_formed (segment : Segment) : bool :=
  match seg_words segment with
  | Some ws => forallb word_well_formed ws
  | None => has_key (seg_start segment) && has_key (seg_end segment)
  end.

Definition well_formed (result : Transcription) : bool :=
  forallb segment_well_formed (get (segments result) []).

End Raw.

(** ** Typed input as raw input *)

Definition raw_word (w : Word) : Raw.Word :=
  {| Raw.w_text := w_text w;
     Raw.w_start := option_map Some (w_start w);
     Raw.w_end := option_map Some (w_end w) |}.

Definition raw_segment (segment : Segment) : Raw.Segment :=
  {| Raw.seg_words := option_map (map raw_word) (seg_words segment);
     Raw.seg_start := option_map Some (seg_start segment);
     Raw.seg_end := option_map Some (seg_end segment);
     Raw.seg_text := seg_text segment |}.

Definition raw_result (result : Transcription) : Raw.Transcription :=
  {| Raw.segments := option_map (map raw_segment) (segments result) |}.

(** The numbers of a typed result are within the range of [timedelta]. *)
Definition range_ok (x : option Q) : bool :=
  match x with
  | Some v => representable (timedelta_seconds v)
  | None => true
  end.

Definition word_in_range (w : Word) : bool :=
  range_ok (w_start w) && range_ok (w_end w).

Definition segment_in_range (segment : Segment) : bool :=
  match seg_words segment with
  | Some ws => forallb word_in_range ws
  | None => range_ok (seg_start segment) && range_ok (seg_end segment)
  end.

Definition in_range (result : Transcription) : bool :=
  forallb segment_in_range (get (segments result) []).

Definition state_in_range (st : locals) : Prop :=
  range_ok (start_time st) = true /\ range_ok (end_time st) = true.

(** A [KeyError], if [e] is one, is that of "start" or of "end". *)
Definition start_or_end (e : exn) : Prop :=
  match e with
  | KeyError key => key = "start"%string \/ key = "end"%string
  | _ => True
  end.

(** What the pass guarantees about the blocks of a group, by the kind of
    its segment: for a word-level segment the threshold on all blocks but
    the last and the runs of words behind the blocks, each cut at the first
    word that reaches [min_chars]; for a flat segment the trimmed text. *)
Definition threshold_by_kind (self : AudioTranscriber) (segment : Segment)
  (bs : list srt.Subtitle) : Prop :=
  match seg_words segment with
  | Some ws =>
      Forall (long_enough self) (removelast bs)
      /\ exists runs,
          List.concat runs = filter used ws
          /\ Forall2 block_of_group bs runs
          /\ Forall (greedy self) runs
  | None =>
      exists b, bs = [b] /\ srt.content b = strip (get (seg_text segment) [])
  end.

(** Raw scenario data. *)

(** A word whose "start" and "end" are bound to [None]. *)
Definition none_word (text : string) : Raw.Word :=
  {| Raw.w_text := Some (py text); Raw.w_start := Some None;
     Raw.w_end := Some None |}.

Definition raw_word_segment (ws : list Raw.Word) : Raw.Segment :=
  {| Raw.seg_words := Some ws; Raw.seg_start := None; Raw.seg_end := None;
     Raw.seg_text := None |}.

(** A flat segment that starts 10^15 seconds in. *)
Definition far_flat : Raw.Segment :=
  {| Raw.seg_words := None;
     Raw.seg_start := Some (Some 1000000000000000%Q);
     Raw.seg_end := Some (Some 1000000000000001%Q);
     Raw.seg_text := Some (py "late") |}.

(** * Properties *)

(** ** The error monad and the loops *)

Lemma bind_Ok {A B : Type} (m : outcome A) (k : A -> outcome B) (b : B) :
  bind m k = Ok b -> exists a, m = Ok a /\ k a = Ok b.
Proof.
  destruct m as [a|e]; simpl; intros H; [eauto | discriminate].
Qed.

Lemma truthy_true (s : str) : truthy s = true <-> s <> [].
Proof.
  destruct s; simpl; split; congruence.
Qed.

Lemma truthy_false (s : str) : truthy s = false <-> s = [].
Proof.
  destruct s; simpl; split; congruence.
Qed.

Lemma words_loop_app self (a b : list Word) (st : locals) :
  words_loop self (a ++ b) st =
  (st' <- words_loop self a st ;; words_loop self b st').
Proof.
  revert st; induction a as [|w a IH]; intros st; simpl; [reflexivity|].
  destruct (word_body self st w) as [st1|e]; simpl; [apply IH | reflexivity].
Qed.

Lemma word_body_skip self st w :
  used w = false -> word_body self st w = Ok st.
Proof.
  unfold used, word_body; intros ->; reflexivity.
Qed.

(** Every way an iteration can complete. *)
Lemma word_body_Ok self st w st' :
  word_body self st w = Ok st' ->
  (used w = false /\ st' = st)
  \/ (used w = true /\ exists e, w_end w = Some e /\
      ((min_chars self <= len (next_text st w)
        /\ exists s, next_start st w = Some s /\ st' = flushed st w s e)
       \/ (len (next_text st w) < min_chars self
           /\ (accumulated_text st = [] -> w_start w <> None)
           /\ st' = kept st w e))).
Proof.
  unfold word_body, used, flushed, kept, next_text, next_start.
  destruct (truthy (strip (get (w_text w) []))) eqn:Hu; cbn [negb].
  2:{ intros [= <-]; left; split; reflexivity. }
  intros H; right; split; [reflexivity|].
  destruct (truthy (accumulated_text st)) eqn:Hacc; cbn [negb bind] in H.
  - destruct (w_end w) as [e|]; cbn [getitem bind] in H; [|discriminate].
    exists e; split; [reflexivity|].
    destruct (Z.geb_spec (len (accumulated_text st ++ [space]
                                  ++ strip (get (w_text w) [])))
                (min_chars self)) as [Hge|Hlt].
    + left; split; [lia|].
      destruct (start_time st) as [s|]; cbn [timedelta_of bind] in H;
        [|discriminate].
      injection H as <-; eauto.
    + right; split; [lia|]; split.
      * intros Heq; rewrite Heq in Hacc; discriminate.
      * injection H as <-; reflexivity.
  - destruct (w_start w) as [s|]; cbn [getitem bind] in H; [|discriminate].
    destruct (w_end w) as [e|]; cbn [getitem bind] in H; [|discriminate].
    exists e; split; [reflexivity|].
    destruct (Z.geb_spec (len (strip (get (w_text w) []))) (min_chars self))
      as [Hge|Hlt].
    + left; split; [lia|]. cbn [timedelta_of bind] in H.
      injection H as <-; eauto.
    + right; split; [lia|]; split; [congruence|].
      injection H as <-; reflexivity.
Qed.

Lemma used_text_nonempty w : used w = true -> strip (get (w_text w) []) <> [].
Proof.
  unfold used; apply truthy_true.
Qed.

Lemma next_text_nonempty st w : used w = true -> next_text st w <> [].
Proof.
  intros Hu; unfold next_text.
  destruct (truthy (accumulated_text st)) eqn:Hacc.
  - apply truthy_true in Hacc. destruct (accumulated_text st); simpl; congruence.
  - now apply used_text_nonempty.
Qed.

(** [segments_loop] appends the grouped output to what it was given. *)
Lemma segments_loop_grouped self segs subs i :
  segments_loop self segs subs i =
  (groups <- grouped self segs i ;; Ok (subs ++ blocks_of groups)).
Proof.
  revert subs i; induction segs as [|seg segs IH]; intros subs i; simpl.
  - now rewrite app_nil_r.
  - unfold segment_blocks.
    destruct (seg_words seg) as [ws|].
    + destruct (_process_segment_with_words self seg i) as [[bs i']|e];
        simpl; [|reflexivity].
      rewrite IH. destruct (grouped self segs i') as [groups|e]; simpl;
        [|reflexivity].
      unfold blocks_of; simpl. now rewrite app_assoc.
    + destruct (_process_segment_without_words self seg i) as [b|e];
        simpl; [|reflexivity].
      rewrite IH. destruct (grouped self segs (i + 1)) as [groups|e]; simpl;
        [|reflexivity].
      unfold blocks_of; simpl. now rewrite <- app_assoc.
Qed.

Lemma process_transcription_grouped self result :
  process_transcription self result =
  (groups <- grouped self (get (segments result) []) 1 ;;
   Ok (blocks_of groups)).
Proof.
  unfold process_transcription. now rewrite segments_loop_grouped.
Qed.

Lemma process_transcription_Ok self result subs :
  process_transcription self result = Ok subs ->
  exists groups,
    grouped self (get (segments result) []) 1 = Ok groups
    /\ subs = blocks_of groups.
Proof.
  rewrite process_transcription_grouped. intros H.
  apply bind_Ok in H as (groups & Hg & [= <-]). eauto.
Qed.

Lemma grouped_fst self segs i groups :
  grouped self segs i = Ok groups -> map fst groups = segs.
Proof.
  revert i groups; induction segs as [|seg segs IH]; intros i groups; simpl.
  - now intros [= <-].
  - intros H. apply bind_Ok in H as ([bs i'] & _ & H).
    apply bind_Ok in H as (gs & Hgs & [= <-]). simpl.
    f_equal. eapply IH; eassumption.
Qed.

(** Every group is the contribution of its segment at some index. *)
Lemma grouped_In self segs i groups segment bs :
  grouped self segs i = Ok groups -> In (segment, bs) groups ->
  exists j j', segment_blocks self segment j = Ok (bs, j').
Proof.
  revert i groups; induction segs as [|seg segs IH]; intros i groups; simpl.
  - intros [= <-] [].
  - intros H. apply bind_Ok in H as ([bs0 i'] & Hseg & H).
    apply bind_Ok in H as (gs & Hgs & [= <-]). intros [[= <- <-]|Hin].
    + eauto.
    + eapply IH; eassumption.
Qed.

(** An invariant of the iterations, which may mention the words already
    seen, holds when the loop ends. *)
Lemma words_loop_invariant self (P : list Word -> locals -> Prop) :
  (forall pre st w st',
      P pre st -> word_body self st w = Ok st' -> P (pre ++ [w]) st') ->
  forall ws pre st st',
    P pre st -> words_loop self ws st = Ok st' -> P (pre ++ ws) st'.
Proof.
  intros Hstep ws; induction ws as [|w ws IH]; intros pre st st' HP; simpl.
  - intros [= <-]. now rewrite app_nil_r.
  - intros H. apply bind_Ok in H as (st1 & Hbody & Hloop).
    replace (pre ++ w :: ws) with ((pre ++ [w]) ++ ws)
      by now rewrite <- app_assoc.
    eapply IH; [|eassumption]. eapply Hstep; eassumption.
Qed.

(** ** Facts about strings *)

Lemma lstrip_prefix (s : str) :
  exists ws, s = ws ++ lstrip s /\ forallb isspace ws = true.
Proof.
  induction s as [|c s (ws & Hs & Hws)]; simpl.
  - exists []; split; reflexivity.
  - destruct (isspace c) eqn:Hc.
    + exists (c :: ws); simpl. rewrite Hc, Hws. split; [congruence|reflexivity].
    + exists []; split; reflexivity.
Qed.

Lemma lstrip_head (s : str) c r : lstrip s = c :: r -> isspace c = false.
Proof.
  induction s as [|x s IH]; simpl; [discriminate|].
  destruct (isspace x) eqn:Hx; [assumption|]. now intros [= <- _].
Qed.

Lemma lstrip_nil (s : str) : lstrip s = [] <-> forallb isspace s = true.
Proof.
  induction s as [|c s IH]; simpl; [tauto|].
  destruct (isspace c); simpl; [assumption|]. split; discriminate.
Qed.

Lemma rstrip_suffix (s : str) :
  exists ws, s = rstrip s ++ ws /\ forallb isspace ws = true.
Proof.
  destruct (lstrip_prefix (rev s)) as (ws & Hs & Hws).
  exists (rev ws). split.
  - unfold rstrip. rewrite <- rev_app_distr, <- Hs. now rewrite rev_involutive.
  - rewrite forallb_forall in *. intros c Hc. apply Hws.
    now apply in_rev.
Qed.

Lemma forallb_isspace_rev (s : str) :
  forallb isspace (rev s) = forallb isspace s.
Proof.
  apply eq_true_iff_eq. rewrite !forallb_forall.
  split; intros H c Hc; apply H; [now apply -> in_rev | now apply in_rev].
Qed.

Lemma strip_nil (s : str) : strip s = [] <-> forallb isspace s = true.
Proof.
  unfold strip, rstrip. split.
  - intros H. apply lstrip_nil.
    apply (f_equal (@rev char)) in H. rewrite rev_involutive in H.
    simpl in H. apply lstrip_nil in H. rewrite forallb_isspace_rev in H.
    destruct (lstrip s) as [|c r] eqn:Hl; [reflexivity|].
    apply lstrip_head in Hl. simpl in H. now rewrite Hl in H.
  - intros H. apply lstrip_nil in H. now rewrite H.
Qed.

Lemma split_nonspace_head c (s : str) :
  isspace c = false -> split (c :: s) <> [].
Proof.
  intros Hc. cbn [split]. rewrite Hc.
  destruct s as [|c' s]; [discriminate|].
  destruct (isspace c'); [discriminate|].
  destruct (split (c' :: s)); discriminate.
Qed.

(** A white-space code point between two strings separates their runs. *)
Lemma split_app_sep (a b : str) c :
  isspace c = true -> split (a ++ c :: b) = split a ++ split b.
Proof.
  intros Hc. induction a as [|x a IH].
  - simpl. now rewrite Hc.
  - cbn [app]. cbn [split]. destruct (isspace x) eqn:Hx; [exact IH|].
    destruct a as [|y a].
    + cbn [app] in *. rewrite Hc, IH. reflexivity.
    + cbn [app] in *. destruct (isspace y) eqn:Hy.
      * now rewrite IH.
      * rewrite IH. pose proof (split_nonspace_head y a Hy) as Hne.
        destruct (split (y :: a)) as [|t ts]; [congruence|reflexivity].
Qed.

Lemma split_app_spaces (a ws : str) :
  forallb isspace ws = true -> split (a ++ ws) = split a.
Proof.
  revert a; induction ws as [|c ws IH]; intros a Hws.
  - now rewrite app_nil_r.
  - simpl in Hws. apply andb_prop in Hws as [Hc Hws].
    rewrite split_app_sep by assumption.
    specialize (IH [] Hws). simpl in IH. rewrite IH. apply app_nil_r.
Qed.

Lemma split_lstrip (s : str) : split (lstrip s) = split s.
Proof.
  induction s as [|c s IH]; [reflexivity|].
  cbn [lstrip]. destruct (isspace c) eqn:Hc; [|reflexivity].
  rewrite IH. cbn [split]. now rewrite Hc.
Qed.

Lemma split_rstrip (s : str) : split (rstrip s) = split s.
Proof.
  destruct (rstrip_suffix s) as (ws & Hs & Hws).
  rewrite Hs at 2. symmetry. now apply split_app_spaces.
Qed.

Lemma split_strip (s : str) : split (strip s) = split s.
Proof.
  unfold strip. now rewrite split_rstrip, split_lstrip.
Qed.

Lemma split_join (l : list str) :
  split (join [space] l) = flat_map split l.
Proof.
  induction l as [|x l IH]; [reflexivity|].
  destruct l as [|y l].
  - simpl. now rewrite app_nil_r.
  - change (join [space] (x :: y :: l))
      with (x ++ space :: join [space] (y :: l)).
    rewrite split_app_sep by reflexivity. now rewrite IH.
Qed.

(** ** Rounding to microseconds *)

(** The rounded value is within one half of the rational, and a tie is
    only ever resolved to an even integer. *)
Lemma round_half_even_spec (q : Q) :
  let n := Qnum q in
  let d := Zpos (Qden q) in
  let k := round_half_even q in
  2 * n - d <= 2 * (d * k) <= 2 * n + d
  /\ (2 * (d * k) = 2 * n + d -> Z.even k = true)
  /\ (2 * (d * k) = 2 * n - d -> Z.even k = true).
Proof.
  intros n d k. subst k. unfold round_half_even. fold n d.
  assert (Hd : 0 < d) by (subst d; lia).
  pose proof (Z.div_mod n d ltac:(lia)) as Hdiv.
  pose proof (Z.mod_pos_bound n d Hd) as Hmod.
  set (f := n / d) in *. set (r := n mod d) in *.
  destruct (Z.ltb_spec (2 * r) d) as [Hlt|Hge].
  - repeat split; try lia.
  - destruct (Z.ltb_spec d (2 * r)) as [Hgt|Hle].
    + repeat split; try lia.
    + destruct (Z.even f) eqn:Hev.
      * repeat split; try lia. intros _; exact Hev.
      * repeat split; try lia. intros _.
        rewrite Z.add_1_r, Z.even_succ, <- Z.negb_even, Hev. reflexivity.
Qed.

Lemma round_half_even_monotone (x y : Q) :
  (x <= y)%Q -> round_half_even x <= round_half_even y.
Proof.
  unfold Qle. intros Hxy.
  destruct (round_half_even_spec x) as ([_ Hx] & Hxtie & _).
  destruct (round_half_even_spec y) as ([Hy _] & _ & Hytie).
  set (k1 := round_half_even x) in *. set (k2 := round_half_even y) in *.
  set (n1 := Qnum x) in *. set (n2 := Qnum y) in *.
  set (d1 := Zpos (Qden x)) in *. set (d2 := Zpos (Qden y)) in *.
  assert (Hd1 : 0 < d1) by (subst d1; lia).
  assert (Hd2 : 0 < d2) by (subst d2; lia).
  destruct (Z.le_gt_cases k1 k2) as [Hle|Hgt]; [assumption|exfalso].
  assert (H1 : 2 * (d1 * k1) * d2 <= (2 * n1 + d1) * d2)
    by (apply Z.mul_le_mono_nonneg_r; lia).
  assert (H2 : (2 * n2 - d2) * d1 <= 2 * (d2 * k2) * d1)
    by (apply Z.mul_le_mono_nonneg_r; lia).
  assert (Hprod : 0 < d1 * d2) by (apply Z.mul_pos_pos; assumption).
  assert (Hk : d1 * d2 * (k1 - k2 - 1) <= 0) by lia.
  assert (Hk1 : k1 = k2 + 1) by nia.
  assert (E1 : 2 * (d1 * k1) * d2 = (2 * n1 + d1) * d2) by (subst k1; nia).
  assert (E2 : (2 * n2 - d2) * d1 = 2 * (d2 * k2) * d1) by (subst k1; nia).
  apply Z.mul_reg_r in E1; [|lia]. apply Z.mul_reg_r in E2; [|lia].
  apply Hxtie in E1. symmetry in E2. apply Hytie in E2.
  rewrite Hk1, Z.add_1_r, Z.even_succ, <- Z.negb_even, E2 in E1.
  discriminate.
Qed.

Lemma timedelta_seconds_monotone (x y : Q) :
  (x <= y)%Q -> td_le (timedelta_seconds x) (timedelta_seconds y).
Proof.
  intros Hxy. unfold td_le, timedelta_seconds; cbn [total_microseconds].
  apply round_half_even_monotone.
  apply Qmult_le_compat_r; [assumption|]. unfold Qle; simpl; lia.
Qed.

(** ** Scenarios A and B *)

(** C4. The word-level segment Hi/there/friend gives the single block
    (1, 0.0 s, 1.6 s, "Hi there friend") when [min_chars] is 10, and the
    three blocks (1, 0.0, 0.5, "Hi"), (2, 0.5, 1.0, "there"),
    (3, 1.0, 1.6, "friend") when [min_chars] is 2; the same blocks are what
    [process_transcription] returns for a result with this one segment. *)
Theorem scenarios_A_and_B :
  _process_segment_with_words (transcriber 10) hi_there_friend 1
  = Ok ([block 1 0.0 1.6 "Hi there friend"], 2)
  /\ _process_segment_with_words (transcriber 2) hi_there_friend 1
     = Ok ([block 1 0.0 0.5 "Hi"; block 2 0.5 1.0 "there";
            block 3 1.0 1.6 "friend"], 4)
  /\ process_transcription (transcriber 10)
       {| segments := Some [hi_there_friend] |}
     = Ok [block 1 0.0 1.6 "Hi there friend"]
  /\ process_transcription (transcriber 2)
       {| segments := Some [hi_there_friend] |}
     = Ok [block 1 0.0 0.5 "Hi"; block 2 0.5 1.0 "there";
           block 3 1.0 1.6 "friend"].
Proof.
  repeat split; vm_compute; reflexivity.
Qed.

(** ** Index continuity *)

Lemma indices_from_app i n m :
  indices_from i (n + m) =
  indices_from i n ++ indices_from (i + Z.of_nat n) m.
Proof.
  revert i; induction n as [|n IH]; intros i.
  - simpl. now rewrite Z.add_0_r.
  - cbn [Nat.add indices_from app]. rewrite IH. do 3 f_equal. lia.
Qed.

Lemma indices_from_seq i n :
  indices_from i n = map (fun k => i + Z.of_nat k) (seq 0 n).
Proof.
  revert i; induction n as [|n IH]; intros i; [reflexivity|].
  cbn [indices_from seq map]. rewrite IH, <- seq_shift, map_map.
  f_equal; [lia|]. apply map_ext; intros k; lia.
Qed.

Lemma indices_from_1 n : indices_from 1 n = map Z.of_nat (seq 1 n).
Proof.
  rewrite indices_from_seq, <- seq_shift, map_map.
  apply map_ext; intros k; lia.
Qed.

Lemma numbered_snoc i0 (l : list srt.Subtitle) (b : srt.Subtitle) :
  map srt.index l = indices_from i0 (List.length l) ->
  srt.index b = i0 + Z.of_nat (List.length l) ->
  map srt.index (l ++ [b]) = indices_from i0 (List.length (l ++ [b])).
Proof.
  intros Hl Hb.
  rewrite map_app, length_app, indices_from_app, Hl; simpl.
  now rewrite Hb.
Qed.

Lemma word_body_numbered self i0 st w st' :
  numbered i0 st -> word_body self st w = Ok st' -> numbered i0 st'.
Proof.
  intros [Hmap Hidx] H.
  apply word_body_Ok in H
    as [[_ ->]|(_ & e & _ & [(_ & s & _ & ->)|(_ & _ & ->)])];
    [split; assumption| |split; assumption].
  unfold numbered, flushed; cbn [subtitles index]. split.
  - apply numbered_snoc; [assumption|]. simpl. exact Hidx.
  - rewrite length_app; simpl. lia.
Qed.

Lemma with_words_numbered self segment i bs i' :
  _process_segment_with_words self segment i = Ok (bs, i') ->
  map srt.index bs = indices_from i (List.length bs)
  /\ i' = i + Z.of_nat (List.length bs).
Proof.
  unfold _process_segment_with_words. intros H.
  apply bind_Ok in H as (ws & _ & H).
  apply bind_Ok in H as (st & Hloop & H).
  assert (Hst : numbered i st).
  { apply (words_loop_invariant self (fun _ => numbered i)
             (fun pre st0 w st1 => word_body_numbered self i st0 w st1)
             ws [] _ _) in Hloop; [assumption|].
    split; simpl; [reflexivity | lia]. }
  destruct Hst as [Hmap Hidx]. unfold trailing_block in H.
  destruct (truthy (accumulated_text st)); injection H as <- <-.
  - split.
    + apply numbered_snoc; [assumption|]. simpl. exact Hidx.
    + rewrite length_app; simpl. lia.
  - split; assumption.
Qed.

Lemma segment_blocks_numbered self segment i bs i' :
  segment_blocks self segment i = Ok (bs, i') ->
  map srt.index bs = indices_from i (List.length bs)
  /\ i' = i + Z.of_nat (List.length bs).
Proof.
  unfold segment_blocks. destruct (seg_words segment) as [ws|].
  - apply with_words_numbered.
  - unfold _process_segment_without_words. intros H.
    apply bind_Ok in H as (b & H & [= <- <-]).
    apply bind_Ok in H as (s & _ & H).
    apply bind_Ok in H as (e & _ & [= <-]).
    simpl. split; [f_equal|]; lia.
Qed.

Lemma grouped_numbered self segs i groups :
  grouped self segs i = Ok groups ->
  map srt.index (blocks_of groups)
  = indices_from i (List.length (blocks_of groups)).
Proof.
  revert i groups; induction segs as [|seg segs IH]; intros i groups; simpl.
  - now intros [= <-].
  - intros H. apply bind_Ok in H as ([bs i'] & Hseg & H).
    apply bind_Ok in H as (gs & Hgs & [= <-]).
    apply segment_blocks_numbered in Hseg as [Hbs ->].
    apply IH in Hgs. unfold blocks_of in *; cbn [map snd List.concat].
    now rewrite map_app, length_app, indices_from_app, Hbs, Hgs.
Qed.

(** C1. The indices of the blocks [process_transcription] returns are
    1, 2, ..., N in this order, N being the number of blocks, whatever the
    number of blocks each segment contributed. *)
Theorem index_continuity self result subs :
  process_transcription self result = Ok subs ->
  map srt.index subs = map Z.of_nat (seq 1 (List.length subs)).
Proof.
  intros H. apply process_transcription_Ok in H as (groups & Hg & ->).
  rewrite <- indices_from_1. eapply grouped_numbered; eassumption.
Qed.

Lemma index_continuity_witness :
  map srt.index
    [block 1 0.0 0.5 "Hi"; block 2 0.5 1.0 "there"; block 3 1.0 1.6 "friend"]
  = map Z.of_nat (seq 1 3).
Proof.
  apply (index_continuity (transcriber 2)
           {| segments := Some [hi_there_friend] |}).
  vm_compute; reflexivity.
Defined.

(** ** The threshold *)

Lemma Forall_removelast {A : Type} (P : A -> Prop) (l : list A) :
  Forall P l -> Forall P (removelast l).
Proof.
  induction 1 as [|x l Hx Hl IH]; simpl; [constructor|].
  destruct l; [constructor | now constructor].
Qed.

Lemma word_body_long_enough self st w st' :
  Forall (long_enough self) (subtitles st) ->
  word_body self st w = Ok st' ->
  Forall (long_enough self) (subtitles st').
Proof.
  intros Hall H.
  apply word_body_Ok in H
    as [[_ ->]|(_ & e & _ & [(Hlen & s & _ & ->)|(_ & _ & ->)])];
    try assumption.
  cbn [flushed subtitles]. apply Forall_app; split; [assumption|].
  constructor; [exact Hlen | constructor].
Qed.

Lemma with_words_threshold self segment i bs i' :
  _process_segment_with_words self segment i = Ok (bs, i') ->
  Forall (long_enough self) (removelast bs).
Proof.
  unfold _process_segment_with_words. intros H.
  apply bind_Ok in H as (ws & _ & H).
  apply bind_Ok in H as (st & Hloop & H).
  assert (Hst : Forall (long_enough self) (subtitles st)).
  { apply (words_loop_invariant self
             (fun _ st0 => Forall (long_enough self) (subtitles st0))
             (fun pre st0 w st1 => word_body_long_enough self st0 w st1)
             ws [] _ _) in Hloop; [assumption | constructor]. }
  unfold trailing_block in H.
  destruct (truthy (accumulated_text st)); injection H as <- <-.
  - now rewrite removelast_last.
  - now apply Forall_removelast.
Qed.

(** C2, as stated, fails: with [min_chars] 10 the flat segment "Hi" gives a
    block of two characters, and the result has no word-level segment whose
    last block it could be. *)
Lemma threshold_fails_on_flat_segment :
  exists groups,
    grouped (transcriber 10) (get (segments (only_flat "Hi")) []) 1
    = Ok groups
    /\ process_transcription (transcriber 10) (only_flat "Hi")
       = Ok (blocks_of groups)
    /\ ~ threshold_everywhere (transcriber 10) groups.
Proof.
  exists [(flat_segment 0.0 1.0 "Hi", [block 1 0.0 1.0 "Hi"])].
  split; [vm_compute; reflexivity|]. split; [vm_compute; reflexivity|].
  intros Hall. specialize (Hall _ _ (or_introl eq_refl)).
  cbn [flat_segment seg_words] in Hall.
  apply Forall_inv in Hall. unfold long_enough in Hall.
  vm_compute in Hall. apply Hall; reflexivity.
Qed.

(** ** Content *)

Lemma word_body_nonempty self st w st' :
  Forall nonempty_content (subtitles st) ->
  word_body self st w = Ok st' ->
  Forall nonempty_content (subtitles st').
Proof.
  intros Hall H.
  apply word_body_Ok in H
    as [[_ ->]|(Hu & e & _ & [(_ & s & _ & ->)|(_ & _ & ->)])];
    try assumption.
  cbn [flushed subtitles]. apply Forall_app; split; [assumption|].
  constructor; [|constructor]. now apply next_text_nonempty.
Qed.

Lemma with_words_nonempty self segment i bs i' :
  _process_segment_with_words self segment i = Ok (bs, i') ->
  Forall nonempty_content bs.
Proof.
  unfold _process_segment_with_words. intros H.
  apply bind_Ok in H as (ws & _ & H).
  apply bind_Ok in H as (st & Hloop & H).
  assert (Hst : Forall nonempty_content (subtitles st)).
  { apply (words_loop_invariant self
             (fun _ st0 => Forall nonempty_content (subtitles st0))
             (fun pre st0 w st1 => word_body_nonempty self st0 w st1)
             ws [] _ _) in Hloop; [assumption | constructor]. }
  unfold trailing_block in H.
  destruct (truthy (accumulated_text st)) eqn:Hacc; injection H as <- <-;
    [|assumption].
  apply Forall_app; split; [assumption|].
  constructor; [|constructor]. now apply truthy_true.
Qed.

Lemma without_words_content self segment i b :
  _process_segment_without_words self segment i = Ok b ->
  srt.content b = strip (get (seg_text segment) []).
Proof.
  unfold _process_segment_without_words. intros H.
  apply bind_Ok in H as (s & _ & H).
  apply bind_Ok in H as (e & _ & [= <-]). reflexivity.
Qed.

(** C6, as amended. Every block of a word-level segment has non-empty
    content.  A flat segment gives one block whose content is the trimmed
    text of the segment; it is empty exactly when that text is absent,
    empty or made of white space only. *)
Theorem content_of_blocks self result subs :
  process_transcription self result = Ok subs ->
  exists groups,
    grouped self (get (segments result) []) 1 = Ok groups
    /\ subs = blocks_of groups
    /\ map fst groups = get (segments result) []
    /\ forall segment bs,
         In (segment, bs) groups -> content_by_kind segment bs.
Proof.
  intros H. apply process_transcription_Ok in H as (groups & Hg & ->).
  exists groups. repeat split; try assumption.
  - eapply grouped_fst; eassumption.
  - intros segment bs Hin.
    destruct (grouped_In _ _ _ _ _ _ Hg Hin) as (j & j' & Hseg).
    unfold segment_blocks in Hseg. unfold content_by_kind.
    destruct (seg_words segment) as [ws|].
    + eapply with_words_nonempty; eassumption.
    + apply bind_Ok in Hseg as (b & Hb & [= <- _]).
      apply without_words_content in Hb.
      exists b. repeat split; try assumption; rewrite Hb; apply strip_nil.
Qed.

Lemma content_of_blocks_witness :
  exists groups,
    grouped (transcriber 10) (get (segments (only_flat "  ")) []) 1
    = Ok groups
    /\ [block 1 0.0 1.0 ""] = blocks_of groups
    /\ map fst groups = get (segments (only_flat "  ")) []
    /\ forall segment bs,
         In (segment, bs) groups -> content_by_kind segment bs.
Proof.
  apply (content_of_blocks (transcriber 10) (only_flat "  ")).
  vm_compute; reflexivity.
Defined.

(** C6, as stated, fails: a flat segment whose text is two spaces gives a
    block whose content is the empty string. *)
Lemma empty_content_of_flat_segment :
  exists subs,
    process_transcription (transcriber 10) (only_flat "  ") = Ok subs
    /\ ~ Forall nonempty_content subs.
Proof.
  exists [block 1 0.0 1.0 ""]. split; [vm_compute; reflexivity|].
  intros Hall. apply Forall_inv in Hall. now apply Hall.
Qed.

(** ** Content is not lost *)

Lemma split_next_text st w :
  split (next_text st w)
  = split (accumulated_text st) ++ split (get (w_text w) []).
Proof.
  unfold next_text. destruct (truthy (accumulated_text st)) eqn:Hacc.
  - cbn [app]. rewrite split_app_sep by reflexivity. now rewrite split_strip.
  - apply truthy_false in Hacc. rewrite Hacc. simpl. apply split_strip.
Qed.

Lemma word_body_tokens self pre st w st' :
  tokens_of st
  = flat_map split (map (fun w => get (w_text w) []) (filter used pre)) ->
  word_body self st w = Ok st' ->
  tokens_of st'
  = flat_map split
      (map (fun w => get (w_text w) []) (filter used (pre ++ [w]))).
Proof.
  intros Hinv H. rewrite filter_app. cbn [filter].
  apply word_body_Ok in H
    as [[Hu ->]|(Hu & e & _ & [(_ & s & _ & ->)|(_ & _ & ->)])];
    rewrite Hu.
  - now rewrite app_nil_r.
  - rewrite map_app, flat_map_app. cbn [map flat_map].
    rewrite app_nil_r, <- Hinv. unfold tokens_of.
    cbn [flushed subtitles accumulated_text].
    rewrite map_app, flat_map_app. cbn [map flat_map srt.content split].
    now rewrite split_next_text, !app_nil_r, app_assoc.
  - rewrite map_app, flat_map_app. cbn [map flat_map].
    rewrite app_nil_r, <- Hinv. unfold tokens_of.
    cbn [kept subtitles accumulated_text].
    now rewrite split_next_text, app_assoc.
Qed.

Lemma trailing_block_tokens st :
  flat_map split (map srt.content (fst (trailing_block st))) = tokens_of st.
Proof.
  unfold trailing_block, tokens_of.
  destruct (truthy (accumulated_text st)) eqn:Hacc; cbn [fst].
  - rewrite map_app, flat_map_app. cbn [map flat_map srt.content].
    now rewrite app_nil_r.
  - apply truthy_false in Hacc. rewrite Hacc. simpl. now rewrite app_nil_r.
Qed.

Lemma segment_blocks_tokens self segment i bs i' :
  segment_blocks self segment i = Ok (bs, i') ->
  flat_map split (map srt.content bs)
  = flat_map split (segment_texts segment).
Proof.
  unfold segment_blocks, segment_texts, _process_segment_with_words.
  destruct (seg_words segment) as [ws|]; cbn [getitem bind]; intros H.
  - apply bind_Ok in H as (st & Hloop & [= Hst]).
    apply (f_equal fst) in Hst. cbn [fst] in Hst. subst bs.
    rewrite trailing_block_tokens.
    apply (words_loop_invariant self
             (fun pre st0 =>
                tokens_of st0
                = flat_map split
                    (map (fun w => get (w_text w) []) (filter used pre)))
             (word_body_tokens self) ws [] (initial_locals i) st
             eq_refl Hloop).
  - apply bind_Ok in H as (b & Hb & [= <- _]).
    apply without_words_content in Hb. simpl. rewrite Hb.
    now rewrite split_strip.
Qed.

Lemma grouped_tokens self segs i groups :
  grouped self segs i = Ok groups ->
  flat_map split (map srt.content (blocks_of groups))
  = flat_map split (flat_map segment_texts segs).
Proof.
  revert i groups; induction segs as [|seg segs IH]; intros i groups; simpl.
  - now intros [= <-].
  - intros H. apply bind_Ok in H as ([bs i'] & Hseg & H).
    apply bind_Ok in H as (gs & Hgs & [= <-]).
    apply segment_blocks_tokens in Hseg. apply IH in Hgs.
    unfold blocks_of in *; cbn [map snd List.concat].
    now rewrite map_app, !flat_map_app, Hseg, Hgs.
Qed.

(** C3. The contents of the returned blocks, joined with single spaces,
    and the texts fed into the pass (the text of every word whose trimmed
    text is non-empty, the text of every flat segment), joined in order with
    single spaces, have the same white-space separated runs in the same
    order, hence the same white-space normalisation. *)
Theorem content_non_loss self result subs :
  process_transcription self result = Ok subs ->
  split (join [space] (map srt.content subs))
  = flat_map split (source_texts result)
  /\ normalize (join [space] (map srt.content subs))
     = normalize (join [space] (source_texts result)).
Proof.
  intros H. apply process_transcription_Ok in H as (groups & Hg & ->).
  assert (Hsplit : split (join [space] (map srt.content (blocks_of groups)))
                   = flat_map split (source_texts result)).
  { rewrite split_join. eapply grouped_tokens; eassumption. }
  split; [assumption|].
  unfold normalize. now rewrite Hsplit, split_join.
Qed.

Lemma content_non_loss_witness :
  split (join [space]
           (map srt.content
              [block 1 0.0 0.5 "Hi"; block 2 0.5 1.0 "there";
               block 3 1.0 1.6 "friend"]))
  = flat_map split
      (source_texts {| segments := Some [hi_there_friend] |})
  /\ normalize (join [space]
                  (map srt.content
                     [block 1 0.0 0.5 "Hi"; block 2 0.5 1.0 "there";
                      block 3 1.0 1.6 "friend"]))
     = normalize
         (join [space]
            (source_texts {| segments := Some [hi_there_friend] |})).
Proof.
  apply (content_non_loss (transcriber 2)
           {| segments := Some [hi_there_friend] |}).
  vm_compute; reflexivity.
Defined.

(** ** Start times *)











(** ** Skipped words and the dispatch *)

Lemma segments_loop_cons self segment rest subs i :
  segments_loop self (segment :: rest) subs i =
  ('(bs, i') <- segment_blocks self segment i ;;
   segments_loop self rest (subs ++ bs) i').
Proof.
  cbn [segments_loop]. unfold segment_blocks.
  destruct (seg_words segment); [reflexivity|].
  destruct (_process_segment_without_words self segment i); reflexivity.
Qed.

(** Two segments with the same contribution at every index can be
    exchanged anywhere in the result. *)
Lemma segments_loop_exchange self s1 s2 pre post :
  (forall i, segment_blocks self s1 i = segment_blocks self s2 i) ->
  forall subs i,
    segments_loop self (pre ++ s1 :: post) subs i
    = segments_loop self (pre ++ s2 :: post) subs i.
Proof.
  intros Heq. induction pre as [|s pre IH]; intros subs i.
  - cbn [app]. now rewrite !segments_loop_cons, Heq.
  - cbn [app]. rewrite !segments_loop_cons.
    destruct (segment_blocks self s i) as [[bs i']|e]; simpl;
      [apply IH | reflexivity].
Qed.

(** A segment that contributes nothing can be dropped. *)
Lemma segments_loop_drop self s pre post :
  (forall i, segment_blocks self s i = Ok ([], i)) ->
  forall subs i,
    segments_loop self (pre ++ s :: post) subs i
    = segments_loop self (pre ++ post) subs i.
Proof.
  intros Heq. induction pre as [|s0 pre IH]; intros subs i.
  - cbn [app]. rewrite segments_loop_cons, Heq. simpl.
    now rewrite app_nil_r.
  - cbn [app]. rewrite !segments_loop_cons.
    destruct (segment_blocks self s0 i) as [[bs i']|e]; simpl;
      [apply IH | reflexivity].
Qed.

Lemma words_loop_skip self pre w post st :
  used w = false ->
  words_loop self (pre ++ w :: post) st = words_loop self (pre ++ post) st.
Proof.
  intros Hu. rewrite !words_loop_app.
  destruct (words_loop self pre st) as [st1|e]; simpl; [|reflexivity].
  now rewrite word_body_skip.
Qed.

Lemma words_loop_all_skipped self ws st :
  (forall w, In w ws -> used w = false) -> words_loop self ws st = Ok st.
Proof.
  induction ws as [|w ws IH]; intros Hall; simpl; [reflexivity|].
  rewrite word_body_skip by (apply Hall; now left). simpl.
  apply IH. intros w' Hin. apply Hall. now right.
Qed.

(** C7. A word whose trimmed text is empty leaves the variables of the
    loop as they are (no text is added, no start time set, no end time
    updated), whatever its other fields; the segment gives the same
    outcome as the segment with that word removed. *)
Theorem empty_word_is_skipped self segment pre w post start_index :
  seg_words segment = Some (pre ++ w :: post) ->
  strip (get (w_text w) []) = [] ->
  (forall st, word_body self st w = Ok st)
  /\ _process_segment_with_words self segment start_index
     = _process_segment_with_words self (with_words segment (pre ++ post))
         start_index.
Proof.
  intros Hws Hempty.
  assert (Hu : used w = false) by (unfold used; now rewrite Hempty).
  split; [intros st; now apply word_body_skip|].
  unfold _process_segment_with_words, with_words. rewrite Hws.
  cbn [seg_words getitem bind]. now rewrite words_loop_skip.
Qed.

Lemma empty_word_is_skipped_witness :
  (forall st, word_body (transcriber 10) st (word "  " 7.0 9.0) = Ok st)
  /\ _process_segment_with_words (transcriber 10)
       (word_segment [word "Hi" 0.0 0.5; word "  " 7.0 9.0;
                      word "there" 0.5 1.0]) 1
     = _process_segment_with_words (transcriber 10)
         (with_words
            (word_segment [word "Hi" 0.0 0.5; word "  " 7.0 9.0;
                           word "there" 0.5 1.0])
            ([word "Hi" 0.0 0.5] ++ [word "there" 0.5 1.0])) 1.
Proof.
  apply (empty_word_is_skipped (transcriber 10)
           (word_segment [word "Hi" 0.0 0.5; word "  " 7.0 9.0;
                          word "there" 0.5 1.0])
           [word "Hi" 0.0 0.5] (word "  " 7.0 9.0) [word "there" 0.5 1.0] 1);
    reflexivity.
Defined.

(** C9. A segment that has the key "words" goes through the word
    accumulation whatever else it holds: the result is the one obtained
    with its "start", "end" and "text" removed.  When no word of it has a
    non-empty trimmed text (in particular when the list is empty) it
    contributes no block, leaves the index as it is, and the result is the
    one obtained without the segment. *)
Theorem dispatch_on_words_key self segment ws pre post :
  seg_words segment = Some ws ->
  (forall rest subs i,
      segments_loop self (segment :: rest) subs i
      = ('(bs, i') <- _process_segment_with_words self segment i ;;
         segments_loop self rest (subs ++ bs) i'))
  /\ process_transcription self {| segments := Some (pre ++ segment :: post) |}
     = process_transcription self
         {| segments := Some (pre ++ word_segment ws :: post) |}
  /\ ((forall w, In w ws -> used w = false) ->
      (forall i, _process_segment_with_words self segment i = Ok ([], i))
      /\ process_transcription self
           {| segments := Some (pre ++ segment :: post) |}
         = process_transcription self {| segments := Some (pre ++ post) |}).
Proof.
  intros Hws.
  assert (Hblocks : forall i, segment_blocks self segment i
                              = _process_segment_with_words self segment i).
  { intros i. unfold segment_blocks. now rewrite Hws. }
  split; [|split].
  - intros rest subs i. now rewrite segments_loop_cons, Hblocks.
  - unfold process_transcription; cbn [segments get].
    apply segments_loop_exchange. intros i.
    unfold segment_blocks, _process_segment_with_words, word_segment.
    now rewrite Hws.
  - intros Hall.
    assert (Hnone : forall i,
               _process_segment_with_words self segment i = Ok ([], i)).
    { intros i. unfold _process_segment_with_words. rewrite Hws.
      cbn [getitem bind]. now rewrite words_loop_all_skipped. }
    split; [exact Hnone|].
    unfold process_transcription; cbn [segments get].
    apply segments_loop_drop. intros i. now rewrite Hblocks.
Qed.

Lemma dispatch_on_words_key_witness :
  process_transcription (transcriber 10)
    {| segments :=
         Some ([hi_there_friend]
               ++ {| seg_words := Some [word " " 3.0 4.0];
                     seg_start := Some 3.0%Q; seg_end := Some 4.0%Q;
                     seg_text := Some (py "ignored") |}
               :: [flat_segment 2.0 4.0 " Hello world "]) |}
  = process_transcription (transcriber 10)
      {| segments :=
           Some ([hi_there_friend] ++ [flat_segment 2.0 4.0 " Hello world "])
      |}.
Proof.
  apply (dispatch_on_words_key (transcriber 10)
           {| seg_words := Some [word " " 3.0 4.0];
              seg_start := Some 3.0%Q; seg_end := Some 4.0%Q;
              seg_text := Some (py "ignored") |}
           [word " " 3.0 4.0] [hi_there_friend]
           [flat_segment 2.0 4.0 " Hello world "] eq_refl).
  intros w [<-|[]]. reflexivity.
Defined.

(** ** Absent keys *)

(** An iteration on a word that is not skipped raises [KeyError] when it
    reads an absent key and completes otherwise. *)
Lemma word_body_progress self st w :
  (accumulated_text st <> [] -> start_time st <> None) ->
  used w = true ->
  if negb (truthy (accumulated_text st)) && negb (has_key (w_start w))
     || negb (has_key (w_end w))
  then exists key, word_body self st w = Raise (KeyError key)
  else exists st',
      word_body self st w = Ok st'
      /\ accumulated_text st' = text_after self st w
      /\ (accumulated_text st' <> [] -> start_time st' <> None).
Proof.
  intros Hinv Hu. unfold word_body, text_after, next_text.
  unfold used in Hu. rewrite Hu. cbn [negb].
  destruct (truthy (accumulated_text st)) eqn:Hacc; cbn [negb andb orb bind].
  - apply truthy_true in Hacc. specialize (Hinv Hacc).
    destruct (w_end w) as [e|]; cbn [has_key negb getitem bind]; [|eauto].
    destruct (len _ >=? min_chars self).
    + destruct (start_time st) as [s|]; [|congruence].
      cbn [timedelta_of bind]. eexists; repeat split. cbn. congruence.
    + eexists; repeat split. cbn. intros _. assumption.
  - destruct (w_start w) as [s|]; cbn [has_key negb getitem bind orb];
      [|eauto].
    destruct (w_end w) as [e|]; cbn [has_key negb getitem bind]; [|eauto].
    destruct (len _ >=? min_chars self).
    + cbn [timedelta_of bind]. eexists; repeat split. cbn. congruence.
    + eexists; repeat split. cbn. discriminate.
Qed.

Lemma words_loop_progress self ws :
  forall st,
    (accumulated_text st <> [] -> start_time st <> None) ->
    if reads_missing_key self (accumulated_text st) ws
    then exists key, words_loop self ws st = Raise (KeyError key)
    else exists st', words_loop self ws st = Ok st'.
Proof.
  induction ws as [|w ws IH]; intros st Hinv; cbn [reads_missing_key].
  - simpl; eauto.
  - cbn [words_loop]. destruct (used w) eqn:Hu; cbn [negb].
    + pose proof (word_body_progress self st w Hinv Hu) as Hstep.
      destruct (truthy (accumulated_text st)) eqn:Hacc;
        destruct (has_key (w_start w)); destruct (has_key (w_end w));
        cbn [negb andb orb] in *;
        try (destruct Hstep as (key & ->); simpl; eauto; fail);
        destruct Hstep as (st' & -> & Htext & Hinv'); cbn [bind];
        specialize (IH st' Hinv'); rewrite Htext in IH;
        unfold text_after, next_text in IH; rewrite Hacc in IH; exact IH.
    + rewrite word_body_skip by assumption. cbn [bind]. now apply IH.
Qed.

Lemma segment_blocks_progress self segment i :
  if segment_reads_missing_key self segment
  then exists key, segment_blocks self segment i = Raise (KeyError key)
  else exists bs i', segment_blocks self segment i = Ok (bs, i').
Proof.
  unfold segment_reads_missing_key, segment_blocks,
    _process_segment_with_words, _process_segment_without_words.
  destruct (seg_words segment) as [ws|]; cbn [getitem bind].
  - pose proof (words_loop_progress self ws (initial_locals i)) as Hloop.
    cbn [initial_locals accumulated_text] in Hloop.
    destruct (reads_missing_key self [] ws).
    + destruct Hloop as (key & ->); [congruence|]. simpl; eauto.
    + destruct Hloop as (st' & ->); [congruence|]. simpl.
      destruct (trailing_block st') as [bs i']. eauto.
  - destruct (seg_start segment) as [s|]; cbn; [|eauto].
    destruct (seg_end segment) as [e|]; cbn; eauto.
Qed.

Lemma segments_loop_progress self segs :
  forall subs i,
    if existsb (segment_reads_missing_key self) segs
    then exists key, segments_loop self segs subs i = Raise (KeyError key)
    else exists out, segments_loop self segs subs i = Ok out.
Proof.
  induction segs as [|seg segs IH]; intros subs i.
  - simpl; eauto.
  - rewrite segments_loop_cons. cbn [existsb].
    pose proof (segment_blocks_progress self seg i) as Hseg.
    destruct (segment_reads_missing_key self seg); cbn [orb].
    + destruct Hseg as (key & ->). simpl; eauto.
    + destruct Hseg as (bs & i' & ->). cbn [bind]. apply IH.
Qed.

Lemma well_formed_words_read_no_missing_key self ws :
  forallb word_well_formed ws = true ->
  forall acc, reads_missing_key self acc ws = false.
Proof.
  induction ws as [|w ws IH]; intros Hall acc; [reflexivity|].
  cbn [forallb] in Hall. apply andb_prop in Hall as [Hw Hall].
  unfold word_well_formed in Hw. apply andb_prop in Hw as [Hs He].
  cbn [reads_missing_key]. rewrite Hs, He. cbn [negb andb].
  destruct (used w), (truthy acc); cbn [negb]; now apply IH.
Qed.

Lemma well_formed_reads_no_missing_key self result :
  well_formed result = true -> result_reads_missing_key self result = false.
Proof.
  unfold well_formed, result_reads_missing_key.
  induction (get (segments result) []) as [|seg segs IH]; [reflexivity|].
  cbn [forallb existsb]. intros Hall. apply andb_prop in Hall as [Hseg Hall].
  rewrite (IH Hall), orb_false_r.
  unfold segment_well_formed in Hseg. unfold segment_reads_missing_key.
  destruct (seg_words seg) as [ws|].
  - now apply well_formed_words_read_no_missing_key.
  - now rewrite Hseg.
Qed.

(** On typed results the pass returns a list when every word and every
    flat segment has "start" and "end"; it raises [KeyError] exactly when it
    reads an absent key. *)
Lemma typed_field_access self result :
  (well_formed result = true ->
   exists subs, process_transcription self result = Ok subs)
  /\ (result_reads_missing_key self result = true ->
      exists key, process_transcription self result = Raise (KeyError key))
  /\ (result_reads_missing_key self result = false ->
      exists subs, process_transcription self result = Ok subs).
Proof.
  pose proof (segments_loop_progress self (get (segments result) []) [] 1)
    as Hloop.
  fold (result_reads_missing_key self result) in Hloop.
  fold (process_transcription self result) in Hloop.
  split; [|split].
  - intros Hwf.
    now rewrite (well_formed_reads_no_missing_key self result Hwf) in Hloop.
  - intros Hbad. now rewrite Hbad in Hloop.
  - intros Hgood. now rewrite Hgood in Hloop.
Qed.

(** * Further properties *)

(** ** Joining and trimming *)

Lemma join_app (sep : str) (a b : list str) :
  a <> [] -> b <> [] -> join sep (a ++ b) = join sep a ++ sep ++ join sep b.
Proof.
  intros Ha Hb. induction a as [|x a IH]; [congruence|].
  destruct a as [|y a].
  - destruct b as [|z b]; [congruence | reflexivity].
  - change (join sep ((x :: y :: a) ++ b))
      with (x ++ sep ++ join sep ((y :: a) ++ b)).
    rewrite IH by discriminate.
    change (join sep (x :: y :: a)) with (x ++ sep ++ join sep (y :: a)).
    now rewrite <- !app_assoc.
Qed.

Lemma join_nonempty (sep : str) (l : list str) :
  l <> [] -> Forall (fun t => t <> []) l -> join sep l <> [].
Proof.
  intros Hl Hall. destruct l as [|x l]; [congruence|].
  apply Forall_inv in Hall.
  destruct l; simpl; [assumption|]. destruct x; [congruence|discriminate].
Qed.




Lemma lstrip_fixed (c : char) (s : str) :
  isspace c = false -> lstrip (c :: s) = c :: s.
Proof.
  intros Hc. simpl. now rewrite Hc.
Qed.

Lemma lstrip_fixed_app (a b : str) :
  lstrip a = a -> a <> [] -> lstrip (a ++ b) = a ++ b.
Proof.
  intros Ha Hne. destruct a as [|c a]; [congruence|].
  apply lstrip_head in Ha. cbn [app]. now apply lstrip_fixed.
Qed.

Lemma rstrip_fixed_app (a b : str) :
  rstrip b = b -> b <> [] -> rstrip (a ++ b) = a ++ b.
Proof.
  unfold rstrip. intros Hb Hne.
  apply (f_equal (@rev char)) in Hb. rewrite rev_involutive in Hb.
  rewrite rev_app_distr, lstrip_fixed_app; [|assumption|].
  - now rewrite <- rev_app_distr, rev_involutive.
  - intros Hrev. apply (f_equal (@rev char)) in Hrev.
    rewrite rev_involutive in Hrev. now apply Hne.
Qed.

Lemma lstrip_idempotent (s : str) : lstrip (lstrip s) = lstrip s.
Proof.
  induction s as [|c s IH]; [reflexivity|].
  simpl. destruct (isspace c) eqn:Hc; [assumption|]. now apply lstrip_fixed.
Qed.

Lemma lstrip_rstrip (t : str) : lstrip t = t -> lstrip (rstrip t) = rstrip t.
Proof.
  intros Ht. destruct (rstrip_suffix t) as (ws & Hsplit & _).
  destruct (rstrip t) as [|c r]; [reflexivity|].
  rewrite Hsplit in Ht. cbn [app] in Ht. apply lstrip_head in Ht.
  now apply lstrip_fixed.
Qed.

Lemma strip_trimmed (s : str) : trimmed (strip s).
Proof.
  unfold trimmed, strip. split.
  - apply lstrip_rstrip, lstrip_idempotent.
  - unfold rstrip. now rewrite rev_involutive, lstrip_idempotent.
Qed.

Lemma trimmed_strip (s : str) : trimmed s -> strip s = s.
Proof.
  intros [Hl Hr]. unfold strip. now rewrite Hl.
Qed.

Lemma trimmed_join_space (a t : str) :
  trimmed a -> a <> [] -> trimmed t -> t <> [] ->
  trimmed (a ++ [space] ++ t).
Proof.
  intros [Hla _] Ha [_ Hrt] Ht. split.
  - now apply lstrip_fixed_app.
  - rewrite app_assoc. now apply rstrip_fixed_app.
Qed.

(** A property of the blocks of every segment is a property of the
    output. *)
Lemma grouped_Forall self (P : srt.Subtitle -> Prop) segs :
  (forall segment j bs j',
      In segment segs ->
      segment_blocks self segment j = Ok (bs, j') -> Forall P bs) ->
  forall i groups,
    grouped self segs i = Ok groups -> Forall P (blocks_of groups).
Proof.
  induction segs as [|seg segs IH]; intros Hseg i groups; simpl.
  - intros [= <-]. constructor.
  - intros H. apply bind_Ok in H as ([bs i'] & Hbs & H).
    apply bind_Ok in H as (gs & Hgs & [= <-]).
    unfold blocks_of; cbn [map snd List.concat]. apply Forall_app; split.
    + eapply Hseg; [now left | eassumption].
    + eapply IH; [|eassumption]. intros s j bs0 j' Hin.
      apply Hseg. now right.
Qed.

(** ** Trimmed contents *)

Lemma next_text_trimmed st w :
  used w = true -> trimmed (accumulated_text st) -> trimmed (next_text st w).
Proof.
  intros Hu Hacc. unfold next_text.
  destruct (truthy (accumulated_text st)) eqn:Ht.
  - apply trimmed_join_space; try assumption.
    + now apply truthy_true.
    + apply strip_trimmed.
    + now apply used_text_nonempty.
  - apply strip_trimmed.
Qed.

Lemma word_body_trimmed self st w st' :
  Forall (fun b => trimmed (srt.content b)) (subtitles st)
  /\ trimmed (accumulated_text st) ->
  word_body self st w = Ok st' ->
  Forall (fun b => trimmed (srt.content b)) (subtitles st')
  /\ trimmed (accumulated_text st').
Proof.
  intros [Hall Hacc] H.
  apply word_body_Ok in H
    as [[_ ->]|(Hu & e & _ & [(_ & s & _ & ->)|(_ & _ & ->)])].
  - now split.
  - cbn [flushed subtitles accumulated_text]. split; [|now split].
    apply Forall_app; split; [assumption|].
    constructor; [|constructor]. now apply next_text_trimmed.
  - cbn [kept subtitles accumulated_text]. split; [assumption|].
    now apply next_text_trimmed.
Qed.

Lemma segment_blocks_trimmed self segment i bs i' :
  segment_blocks self segment i = Ok (bs, i') ->
  Forall (fun b => trimmed (srt.content b)) bs.
Proof.
  unfold segment_blocks, _process_segment_with_words.
  destruct (seg_words segment) as [ws|]; cbn [getitem bind]; intros H.
  - apply bind_Ok in H as (st & Hloop & [= Hst]).
    apply (f_equal fst) in Hst. cbn [fst] in Hst. subst bs.
    assert (Hinv : Forall (fun b => trimmed (srt.content b)) (subtitles st)
                   /\ trimmed (accumulated_text st)).
    { apply (words_loop_invariant self
               (fun _ st0 =>
                  Forall (fun b => trimmed (srt.content b)) (subtitles st0)
                  /\ trimmed (accumulated_text st0))
               (fun pre st0 w st1 => word_body_trimmed self st0 w st1)
               ws [] (initial_locals i) st); [|assumption].
      split; [constructor | split; reflexivity]. }
    destruct Hinv as [Hall Hacc]. unfold trailing_block.
    destruct (truthy (accumulated_text st)); cbn [fst]; [|assumption].
    apply Forall_app; split; [assumption|].
    constructor; [exact Hacc | constructor].
  - apply bind_Ok in H as (b & Hb & [= <- _]).
    apply without_words_content in Hb.
    constructor; [|constructor]. rewrite Hb. apply strip_trimmed.
Qed.

(** X1. The content of every returned block is already trimmed: it is
    left as it is by [strip], so it neither starts nor ends with white
    space. *)
Theorem contents_are_trimmed self result subs :
  process_transcription self result = Ok subs ->
  Forall (fun b => strip (srt.content b) = srt.content b) subs.
Proof.
  intros H. apply process_transcription_Ok in H as (groups & Hg & ->).
  eapply Forall_impl; [intros b; apply trimmed_strip|].
  eapply grouped_Forall; [|eassumption].
  intros segment j bs j' _. apply segment_blocks_trimmed.
Qed.

Lemma contents_are_trimmed_witness :
  Forall (fun b => strip (srt.content b) = srt.content b)
    [block 1 0.0 1.6 "Hi there friend"; block 2 2.0 4.0 "Hello world"].
Proof.
  apply (contents_are_trimmed (transcriber 10)
           {| segments :=
                Some [hi_there_friend;
                      flat_segment 2.0 4.0 " Hello world "] |}).
  vm_compute; reflexivity.
Defined.

(** ** The runs of words behind the blocks *)

Lemma word_texts_nonempty (cur : list Word) :
  Forall (fun w => used w = true) cur ->
  Forall (fun t : str => t <> []) (map word_text cur).
Proof.
  intros Hall. apply Forall_map. eapply Forall_impl; [|exact Hall].
  intros w. apply used_text_nonempty.
Qed.

Lemma joined_texts_nonempty (cur : list Word) :
  cur <> [] -> Forall (fun w => used w = true) cur ->
  join [space] (map word_text cur) <> [].
Proof.
  intros Hne Hall. apply join_nonempty.
  - destruct cur; [congruence | discriminate].
  - now apply word_texts_nonempty.
Qed.

(** The text after a word that is not skipped is the run with that word
    added, joined. *)
Lemma next_text_join st w (cur : list Word) :
  accumulated_text st = join [space] (map word_text cur) ->
  Forall (fun w => used w = true) cur ->
  next_text st w = join [space] (map word_text (cur ++ [w])).
Proof.
  intros Hacc Hall. unfold next_text. fold (word_text w).
  destruct cur as [|w0 cur].
  - simpl in Hacc. now rewrite Hacc.
  - assert (Hne : accumulated_text st <> []).
    { rewrite Hacc. now apply joined_texts_nonempty. }
    apply truthy_true in Hne. rewrite Hne, Hacc, map_app.
    rewrite join_app by discriminate. reflexivity.
Qed.

Lemma next_start_of_run st w (cur : list Word) s :
  accumulated_text st = join [space] (map word_text cur) ->
  Forall (fun w => used w = true) cur ->
  (cur <> [] ->
   exists w0 rest s0,
     cur = w0 :: rest /\ w_start w0 = Some s0 /\ start_time st = Some s0) ->
  next_start st w = Some s ->
  exists w0 rest, cur ++ [w] = w0 :: rest /\ w_start w0 = Some s.
Proof.
  intros Hacc Hall Hstart Hnext. unfold next_start in Hnext.
  destruct cur as [|w0 cur].
  - simpl in Hacc. rewrite Hacc in Hnext. simpl in Hnext.
    exists w, []. now split.
  - destruct Hstart as (w1 & rest & s0 & [= <- <-] & Hw & Hst);
      [discriminate|].
    assert (Hne : accumulated_text st <> []).
    { rewrite Hacc. now apply joined_texts_nonempty. }
    apply truthy_true in Hne. rewrite Hne in Hnext.
    exists w0, (cur ++ [w]). split; [reflexivity | congruence].
Qed.

Lemma greedy_snoc self (cur : list Word) w :
  cur = [] \/ len (join [space] (map word_text cur)) < min_chars self ->
  greedy self (cur ++ [w]).
Proof.
  intros H. unfold greedy. rewrite removelast_last. exact H.
Qed.

Lemma word_body_grouping self pre st w st' :
  grouping_invariant self pre st ->
  word_body self st w = Ok st' ->
  grouping_invariant self (pre ++ [w]) st'.
Proof.
  intros (groups & cur & Hcat & Hblocks & Hgreedy & Hlong & Hacc & Hcur
          & Hshort & Hused & Htimes) H.
  apply word_body_Ok in H
    as [[Hu ->]|(Hu & e & He & [(Hlen & s & Hs & ->)|(Hlen & Hw & ->)])].
  - exists groups, cur. unfold grouping. rewrite filter_app. cbn [filter].
    rewrite Hu, app_nil_r. repeat split; try assumption; now apply Htimes.
  - pose proof (next_text_join st w cur Hacc Hused) as Htext.
    exists (groups ++ [cur ++ [w]]), []. unfold grouping.
    rewrite filter_app. cbn [filter]. rewrite Hu.
    cbn [flushed subtitles accumulated_text start_time end_time].
    split; [|split; [|split; [|split; [|split; [|split; [|split;
      [|split]]]]]]].
    + rewrite concat_app. cbn [List.concat]. rewrite !app_nil_r.
      now rewrite app_assoc, Hcat.
    + apply Forall2_app; [assumption|]. constructor; [|constructor].
      split; [exact Htext|]. split.
      * destruct (next_start_of_run st w cur s Hacc Hused
                    (fun Hne => proj1 (Htimes Hne)) Hs)
          as (w0 & rest & Hrun & Hw0).
        exists w0, rest, s. now repeat split.
      * exists cur, w, e. now repeat split.
    + apply Forall_app; split; [assumption|].
      constructor; [|constructor]. now apply greedy_snoc.
    + apply Forall_app; split; [assumption|].
      constructor; [|constructor]. now rewrite <- Htext.
    + reflexivity.
    + now left.
    + now left.
    + constructor.
    + congruence.
  - pose proof (next_text_join st w cur Hacc Hused) as Htext.
    exists groups, (cur ++ [w]). unfold grouping.
    rewrite filter_app. cbn [filter]. rewrite Hu.
    cbn [kept subtitles accumulated_text start_time end_time].
    split; [|split; [|split; [|split; [|split; [|split; [|split;
      [|split]]]]]]]; try assumption.
    + now rewrite app_assoc, Hcat.
    + now apply greedy_snoc.
    + right. now rewrite <- Htext.
    + apply Forall_app; split; [assumption|].
      constructor; [exact Hu | constructor].
    + intros _. split; [|exists cur, w, e; now repeat split].
      unfold next_start. destruct cur as [|w0 cur].
      * simpl in Hacc. rewrite Hacc. simpl.
        destruct (w_start w) as [s|] eqn:Hws; [|now destruct (Hw Hacc)].
        exists w, [], s. now repeat split.
      * destruct (Htimes ltac:(discriminate))
          as ((w1 & rest & s0 & [= <- <-] & Hw0 & Hst) & _).
        assert (Hne : accumulated_text st <> []).
        { rewrite Hacc. now apply joined_texts_nonempty. }
        apply truthy_true in Hne. rewrite Hne.
        exists w0, (cur ++ [w]), s0. now repeat split.
Qed.

(** The blocks of a word-level segment are those of consecutive runs of
    its unskipped words. *)
Lemma with_words_groups self segment ws i bs i' :
  seg_words segment = Some ws ->
  _process_segment_with_words self segment i = Ok (bs, i') ->
  exists groups,
    List.concat groups = filter used ws
    /\ Forall2 block_of_group bs groups
    /\ Forall (greedy self) groups
    /\ Forall (fun g => min_chars self <= len (join [space] (map word_text g)))
         (removelast groups).
Proof.
  intros Hws H. unfold _process_segment_with_words in H. rewrite Hws in H.
  cbn [getitem bind] in H. apply bind_Ok in H as (st & Hloop & [= Hst]).
  apply (f_equal fst) in Hst. cbn [fst] in Hst. subst bs.
  assert (Hinv : grouping_invariant self ws st).
  { apply (words_loop_invariant self (grouping_invariant self)
             (word_body_grouping self) ws [] (initial_locals i) st);
      [|assumption].
    exists [], []. unfold grouping; cbn.
    split; [reflexivity|]. split; [apply Forall2_nil|].
    split; [apply Forall_nil|]. split; [apply Forall_nil|].
    split; [reflexivity|]. split; [now left|]. split; [now left|].
    split; [apply Forall_nil | congruence]. }
  destruct Hinv as (groups & cur & Hcat & Hblocks & Hgreedy & Hlong & Hacc
                    & Hcur & Hshort & Hused & Htimes).
  unfold trailing_block. destruct (truthy (accumulated_text st)) eqn:Ht;
    cbn [fst].
  - assert (Hne : cur <> []).
    { intros ->. simpl in Hacc. rewrite Hacc in Ht. discriminate. }
    destruct (Htimes Hne)
      as ((w0 & rest & s & Hrun & Hw0 & Hs) & (front & wl & e & Hrun' & Hwl
                                                & He)).
    exists (groups ++ [cur]). rewrite concat_app. cbn [List.concat].
    rewrite app_nil_r, removelast_last. repeat split; try assumption.
    + apply Forall2_app; [assumption|]. constructor; [|constructor].
      rewrite Hs, He. split; [exact Hacc|]. split.
      * exists w0, rest, s. now repeat split.
      * exists front, wl, e. now repeat split.
    + apply Forall_app; split; [assumption|].
      constructor; [exact Hcur | constructor].
  - assert (Hnil : cur = []).
    { destruct cur as [|w0 cur]; [reflexivity|]. exfalso.
      apply truthy_false in Ht. revert Ht. rewrite Hacc.
      now apply joined_texts_nonempty. }
    subst cur. rewrite app_nil_r in Hcat.
    exists groups. repeat split; try assumption.
    now apply Forall_removelast.
Qed.



(** ** How many blocks *)

Lemma block_of_group_nonempty b g : block_of_group b g -> g <> [].
Proof.
  intros (_ & (w0 & rest & s & -> & _) & _). discriminate.
Qed.

Lemma length_concat_nonempty {A : Type} (groups : list (list A)) :
  Forall (fun g => g <> []) groups ->
  (List.length groups <= List.length (List.concat groups))%nat.
Proof.
  induction 1 as [|g groups Hg _ IH]; simpl; [lia|].
  rewrite length_app. destruct g; [congruence|]. simpl. lia.
Qed.

Lemma groups_nonempty bs groups :
  Forall2 block_of_group bs groups -> Forall (fun g => g <> []) groups.
Proof.
  induction 1 as [|b g bs groups Hb _ IH]; constructor; [|assumption].
  eapply block_of_group_nonempty; eassumption.
Qed.

Lemma with_words_count self segment ws i bs i' :
  seg_words segment = Some ws ->
  _process_segment_with_words self segment i = Ok (bs, i') ->
  (List.length bs <= List.length (filter used ws))%nat
  /\ (bs = [] <-> filter used ws = []).
Proof.
  intros Hws H.
  destruct (with_words_groups self segment ws i bs i' Hws H)
    as (groups & Hcat & Hblocks & _ & _).
  pose proof (groups_nonempty bs groups Hblocks) as Hne.
  pose proof (Forall2_length Hblocks) as Hlen.
  pose proof (length_concat_nonempty groups Hne) as Hle.
  rewrite Hcat in Hle. split; [lia|]. split.
  - intros ->. destruct groups; [now rewrite <- Hcat | discriminate].
  - intros Hnil. rewrite Hnil in Hle. simpl in Hle.
    destruct bs; [reflexivity | simpl in Hlen; lia].
Qed.

(** X3. A word-level segment gives at most one block per unskipped word,
    and gives no block exactly when it has no unskipped word. *)
Theorem block_count self segment ws i bs i' :
  seg_words segment = Some ws ->
  _process_segment_with_words self segment i = Ok (bs, i') ->
  (List.length bs <= List.length (filter used ws))%nat
  /\ (bs = [] <-> filter used ws = []).
Proof.
  apply with_words_count.
Qed.

Lemma block_count_witness :
  (List.length [block 1 0.0 1.0 "Hi there"; block 2 1.0 1.6 "friend"]
   <= List.length
        (filter used
           [word "Hi" 0.0 0.5; word " " 0.5 0.6; word "there" 0.5 1.0;
            word "friend" 1.0 1.6]))%nat
  /\ ([block 1 0.0 1.0 "Hi there"; block 2 1.0 1.6 "friend"] = [] <->
      filter used
        [word "Hi" 0.0 0.5; word " " 0.5 0.6; word "there" 0.5 1.0;
         word "friend" 1.0 1.6] = []).
Proof.
  apply (block_count (transcriber 6)
           (word_segment
              [word "Hi" 0.0 0.5; word " " 0.5 0.6; word "there" 0.5 1.0;
               word "friend" 1.0 1.6])
           _ 1 _ 3 eq_refl).
  vm_compute; reflexivity.
Defined.



Lemma singleton_runs self bs groups :
  min_chars self <= 1 ->
  Forall2 block_of_group bs groups ->
  Forall (greedy self) groups ->
  Forall (fun w => used w = true) (List.concat groups) ->
  Forall2 block_of_word bs (List.concat groups).
Proof.
  intros Hmin Hblocks. induction Hblocks as [|b g bs groups Hb _ IH];
    intros Hgreedy Hused; [constructor|].
  apply Forall_cons_iff in Hgreedy as [Hg Hgreedy].
  cbn [List.concat] in *. apply Forall_app in Hused as [Hgu Hused].
  destruct Hb as (Hcontent & (w0 & rest & s & Hg0 & Hw0 & Hs)
                  & (front & wl & e & Hgl & Hwl & He)).
  assert (Hfront : front = []).
  { unfold greedy in Hg. rewrite Hgl, removelast_last in Hg.
    destruct Hg as [Hnil|Hshort]; [assumption|].
    destruct front as [|f front]; [reflexivity|]. exfalso.
    rewrite Hgl in Hgu. apply Forall_app in Hgu as [Hfu _].
    pose proof (joined_texts_nonempty (f :: front) ltac:(discriminate) Hfu)
      as Hne.
    unfold len in Hshort.
    destruct (join [space] (map word_text (f :: front)));
      [congruence | simpl in Hshort; lia]. }
  subst front. cbn [app] in Hgl. rewrite Hgl in Hg0, Hcontent |- *.
  injection Hg0 as <- _.
  cbn [app]. constructor; [|now apply IH].
  split; [simpl in Hcontent; exact Hcontent|]. split; eauto.
Qed.

(** X5. When [min_chars] is at most 1, a word-level segment gives one
    block per unskipped word, in order: the block holds the trimmed text
    of the word and has its start and its end. *)
Theorem one_block_per_word self segment ws i bs i' :
  min_chars self <= 1 ->
  seg_words segment = Some ws ->
  _process_segment_with_words self segment i = Ok (bs, i') ->
  Forall2 block_of_word bs (filter used ws).
Proof.
  intros Hmin Hws H.
  destruct (with_words_groups self segment ws i bs i' Hws H)
    as (groups & Hcat & Hblocks & Hgreedy & _).
  rewrite <- Hcat. eapply singleton_runs; try eassumption.
  rewrite Hcat. apply Forall_forall. intros w Hin.
  now apply filter_In in Hin.
Qed.

Lemma one_block_per_word_witness :
  Forall2 block_of_word
    [block 1 0.0 0.5 "Hi"; block 2 0.5 1.0 "there"; block 3 1.0 1.6 "friend"]
    (filter used
       [word "Hi" 0.0 0.5; word "there" 0.5 1.0; word "friend" 1.0 1.6]).
Proof.
  apply (one_block_per_word (transcriber 0) hi_there_friend _ 1 _ 4);
    [vm_compute; discriminate | reflexivity | vm_compute; reflexivity].
Defined.

(** ** Durations *)

Lemma timedelta_seconds_le_trans (a b c : Q) :
  (a <= b)%Q -> (b <= c)%Q ->
  td_le (timedelta_seconds a) (timedelta_seconds c).
Proof.
  intros Hab Hbc. apply timedelta_seconds_monotone.
  eapply Qle_trans; eassumption.
Qed.

Lemma words_loop_durations self ws :
  forall st st',
    Forall timed ws ->
    StronglySorted Qle (used_starts ws) ->
    words_loop self ws st = Ok st' ->
    Forall ends_after_start (subtitles st) ->
    (forall s0, start_time st = Some s0 -> Forall (Qle s0) (used_starts ws)) ->
    (accumulated_text st <> [] ->
     exists s0 e0,
       start_time st = Some s0 /\ end_time st = Some e0 /\ (s0 <= e0)%Q) ->
    Forall ends_after_start (fst (trailing_block st')).
Proof.
  induction ws as [|w ws IH];
    intros st st' Htimed Hsorted Hloop Hblocks Hbound Hcur.
  - simpl in Hloop. injection Hloop as <-. unfold trailing_block.
    destruct (truthy (accumulated_text st)) eqn:Hacc; cbn [fst];
      [|assumption].
    apply truthy_true in Hacc.
    destruct (Hcur Hacc) as (s0 & e0 & -> & -> & Hle).
    apply Forall_app; split; [assumption|]. constructor; [|constructor].
    now apply timedelta_seconds_monotone.
  - cbn [words_loop] in Hloop.
    apply bind_Ok in Hloop as (st1 & Hbody & Hloop).
    apply Forall_cons_iff in Htimed as [Hw Htimed].
    apply word_body_Ok in Hbody
      as [[Hu ->]|(Hu & e & He & [(_ & s1 & Hs1 & ->)|(_ & _ & ->)])].
    + assert (Hsame : used_starts (w :: ws) = used_starts ws).
      { simpl. rewrite Hu. now destruct (w_start w). }
      rewrite Hsame in Hsorted, Hbound. now apply (IH st st').
    + destruct (Hw Hu) as (s & e' & Hws & Hwe & Hse).
      assert (e' = e) by congruence. subst e'.
      assert (Hcons : used_starts (w :: ws) = s :: used_starts ws)
        by (simpl; now rewrite Hws, Hu).
      rewrite Hcons in Hsorted, Hbound.
      inversion Hsorted as [|? ? Htail Hhead]; subst.
      apply (IH (flushed st w s1 e) st'); try assumption;
        cbn [flushed subtitles start_time accumulated_text];
        [|discriminate|congruence].
      apply Forall_app; split; [assumption|]. constructor; [|constructor].
      unfold ends_after_start; cbn [srt.start srt.end_].
      unfold next_start in Hs1.
      destruct (truthy (accumulated_text st)).
      * specialize (Hbound s1 Hs1). apply Forall_inv in Hbound.
        eapply timedelta_seconds_le_trans; eassumption.
      * assert (s1 = s) by congruence. subst s1.
        now apply timedelta_seconds_monotone.
    + destruct (Hw Hu) as (s & e' & Hws & Hwe & Hse).
      assert (e' = e) by congruence. subst e'.
      assert (Hcons : used_starts (w :: ws) = s :: used_starts ws)
        by (simpl; now rewrite Hws, Hu).
      rewrite Hcons in Hsorted, Hbound.
      inversion Hsorted as [|? ? Htail Hhead]; subst.
      apply (IH (kept st w e) st'); try assumption;
        cbn [kept subtitles start_time end_time accumulated_text];
        unfold next_start;
        destruct (truthy (accumulated_text st)) eqn:Hacc.
      * intros s0 Hs0. specialize (Hbound s0 Hs0). now inversion Hbound.
      * intros s0 Hs0. assert (s0 = s) by congruence. now subst s0.
      * intros _. apply truthy_true in Hacc.
        destruct (Hcur Hacc) as (s0 & e0 & Hs0 & _ & _).
        specialize (Hbound s0 Hs0). apply Forall_inv in Hbound.
        exists s0, e. repeat split; try assumption.
        eapply Qle_trans; eassumption.
      * intros _. exists s, e. now repeat split.
Qed.

(** X6. In a word-level segment whose unskipped words each have a start
    not after their end, and have non-decreasing starts along the segment,
    no block ends before it starts. *)
Theorem blocks_end_after_they_start self segment ws i bs i' :
  seg_words segment = Some ws ->
  Forall timed ws ->
  Sorted Qle (used_starts ws) ->
  _process_segment_with_words self segment i = Ok (bs, i') ->
  Forall ends_after_start bs.
Proof.
  intros Hws Htimed Hsorted H.
  unfold _process_segment_with_words in H. rewrite Hws in H.
  cbn [getitem bind] in H. apply bind_Ok in H as (st & Hloop & [= Hst]).
  apply (f_equal fst) in Hst. cbn [fst] in Hst. subst bs.
  apply (words_loop_durations self ws (initial_locals i) st);
    try assumption; cbn [initial_locals subtitles start_time accumulated_text].
  - apply Sorted_StronglySorted; [|assumption].
    intros x y z. apply Qle_trans.
  - constructor.
  - discriminate.
  - congruence.
Qed.

Lemma blocks_end_after_they_start_witness :
  Forall ends_after_start
    [block 1 0.0 1.0 "Hi there"; block 2 1.0 1.6 "friend"].
Proof.
  apply (blocks_end_after_they_start (transcriber 6) hi_there_friend
           [word "Hi" 0.0 0.5; word "there" 0.5 1.0; word "friend" 1.0 1.6]
           1 _ 3 eq_refl).
  - repeat constructor; intros _;
      [exists 0.0%Q, 0.5%Q | exists 0.5%Q, 1.0%Q | exists 1.0%Q, 1.6%Q];
      repeat split; unfold Qle; simpl; lia.
  - repeat constructor; unfold Qle; simpl; lia.
  - vm_compute; reflexivity.
Defined.

(** ** An empty output *)

Lemma segment_blocks_empty self segment i bs i' :
  segment_blocks self segment i = Ok (bs, i') ->
  (bs = [] <-> silent segment).
Proof.
  unfold segment_blocks, silent.
  destruct (seg_words segment) as [ws|] eqn:Hws; intros H.
  - destruct (with_words_count self segment ws i bs i' Hws H) as [_ Hiff].
    rewrite Hiff. split.
    + intros Hnil. now exists ws.
    + now intros (ws' & [= <-] & Hnil).
  - apply bind_Ok in H as (b & _ & [= <- _]). split; [discriminate|].
    now intros (ws' & Hnone & _).
Qed.

Lemma grouped_empty self segs :
  forall i groups,
    grouped self segs i = Ok groups ->
    (blocks_of groups = [] <-> Forall silent segs).
Proof.
  induction segs as [|seg segs IH]; intros i groups; simpl.
  - intros [= <-]. split; [constructor | reflexivity].
  - intros H. apply bind_Ok in H as ([bs i'] & Hbs & H).
    apply bind_Ok in H as (gs & Hgs & [= <-]).
    apply segment_blocks_empty in Hbs. apply IH in Hgs.
    unfold blocks_of in *; cbn [map snd List.concat].
    rewrite Forall_cons_iff, <- Hbs, <- Hgs. split.
    + intros Happ. now apply app_eq_nil in Happ.
    + intros [-> ->]. reflexivity.
Qed.

(** X7. The returned list is empty exactly when the result has no flat
    segment and no word-level segment with an unskipped word; in particular
    every flat segment, whatever its text, gives a block. *)
Theorem empty_output self result subs :
  process_transcription self result = Ok subs ->
  (subs = [] <-> Forall silent (get (segments result) [])).
Proof.
  intros H. apply process_transcription_Ok in H as (groups & Hg & ->).
  eapply grouped_empty; eassumption.
Qed.

Lemma empty_output_witness :
  @nil srt.Subtitle = []
  <-> Forall silent
        [word_segment []; word_segment [word " " 0.0 1.0; no_start "" 2.0]].
Proof.
  apply (empty_output (transcriber 10)
           {| segments :=
                Some [word_segment [];
                      word_segment [word " " 0.0 1.0; no_start "" 2.0]] |}).
  vm_compute; reflexivity.
Defined.

(** ** The index a segment returns *)

(** X8. [_process_segment_with_words] numbers its blocks consecutively
    from the start index and returns the start index plus the number of
    blocks, the first index not used. *)
Theorem segment_returns_next_index self segment i bs i' :
  _process_segment_with_words self segment i = Ok (bs, i') ->
  map srt.index bs
  = map (fun k => i + Z.of_nat k) (seq 0 (List.length bs))
  /\ i' = i + Z.of_nat (List.length bs).
Proof.
  intros H. apply with_words_numbered in H as [Hidx Hnext].
  now rewrite <- indices_from_seq.
Qed.

Lemma segment_returns_next_index_witness :
  map srt.index [block 7 0.0 1.0 "Hi there"; block 8 1.0 1.6 "friend"]
  = map (fun k => 7 + Z.of_nat k) (seq 0 2)
  /\ 9 = 7 + Z.of_nat 2.
Proof.
  apply (segment_returns_next_index (transcriber 6) hi_there_friend 7).
  vm_compute; reflexivity.
Defined.

(** ** Exceptions *)

Lemma word_body_keeps_start self st w st' :
  keeps_start st -> word_body self st w = Ok st' -> keeps_start st'.
Proof.
  unfold keeps_start. intros Hinv H.
  apply word_body_Ok in H
    as [[_ ->]|(_ & e & _ & [(_ & s & _ & ->)|(_ & Hw & ->)])];
    [assumption | cbn; congruence|].
  cbn [kept accumulated_text start_time]. intros _. unfold next_start.
  destruct (truthy (accumulated_text st)) eqn:Hacc.
  - apply Hinv. now apply truthy_true.
  - apply Hw. now apply truthy_false.
Qed.

Lemma word_body_Raise self st w e :
  keeps_start st ->
  word_body self st w = Raise e ->
  e = KeyError "start" \/ e = KeyError "end".
Proof.
  unfold keeps_start, word_body. intros Hinv.
  destruct (truthy (strip (get (w_text w) []))); cbn [negb];
    [|discriminate].
  destruct (truthy (accumulated_text st)) eqn:Hacc; cbn [negb bind].
  - apply truthy_true in Hacc. specialize (Hinv Hacc).
    destruct (w_end w); cbn [getitem bind]; [|intros [= <-]; now right].
    destruct (len _ >=? min_chars self); [|discriminate].
    destruct (start_time st); [discriminate | congruence].
  - destruct (w_start w); cbn [getitem bind]; [|intros [= <-]; now left].
    destruct (w_end w); cbn [getitem bind]; [|intros [= <-]; now right].
    destruct (len _ >=? min_chars self); discriminate.
Qed.

Lemma words_loop_Raise self ws :
  forall st e,
    keeps_start st ->
    words_loop self ws st = Raise e ->
    e = KeyError "start" \/ e = KeyError "end".
Proof.
  induction ws as [|w ws IH]; intros st e Hinv; simpl; [discriminate|].
  destruct (word_body self st w) as [st1|e1] eqn:Hbody; simpl.
  - apply IH. eapply word_body_keeps_start; eassumption.
  - intros [= <-]. eapply word_body_Raise; eassumption.
Qed.

Lemma segment_blocks_Raise self segment i e :
  segment_blocks self segment i = Raise e ->
  e = KeyError "start" \/ e = KeyError "end".
Proof.
  unfold segment_blocks, _process_segment_with_words,
    _process_segment_without_words.
  destruct (seg_words segment) as [ws|]; cbn [getitem bind].
  - destruct (words_loop self ws (initial_locals i)) as [st|e1] eqn:Hloop;
      simpl; [discriminate|].
    intros [= <-]. eapply words_loop_Raise; [|eassumption].
    unfold keeps_start; cbn; congruence.
  - destruct (seg_start segment); cbn; [|intros [= <-]; now left].
    destruct (seg_end segment); cbn; [discriminate|intros [= <-]; now right].
Qed.

Lemma segments_loop_Raise self segs :
  forall subs i e,
    segments_loop self segs subs i = Raise e ->
    e = KeyError "start" \/ e = KeyError "end".
Proof.
  induction segs as [|seg segs IH]; intros subs i e; [discriminate|].
  rewrite segments_loop_cons.
  destruct (segment_blocks self seg i) as [[bs i']|e1] eqn:Hseg; simpl.
  - apply IH.
  - intros [= <-]. eapply segment_blocks_Raise; eassumption.
Qed.

(** ** Renumbering and concatenation *)

Lemma word_body_shift self d st w :
  word_body self (shift_locals d st) w
  = map_outcome (shift_locals d) (word_body self st w).
Proof.
  unfold word_body, shift_locals.
  cbn [accumulated_text start_time end_time subtitles index].
  destruct (truthy (strip (get (w_text w) []))); cbn [negb];
    [|reflexivity].
  destruct (truthy (accumulated_text st)); cbn [negb bind].
  - destruct (w_end w); cbn [getitem bind map_outcome]; [|reflexivity].
    destruct (len _ >=? min_chars self); cbn [map_outcome]; [|reflexivity].
    destruct (start_time st); cbn [timedelta_of bind map_outcome];
      [|reflexivity].
    cbn [accumulated_text start_time end_time subtitles index].
    rewrite map_app. cbn [map shift_index srt.index srt.start srt.end_
                            srt.content].
    do 2 f_equal. lia.
  - destruct (w_start w); cbn [getitem bind map_outcome]; [|reflexivity].
    destruct (w_end w); cbn [getitem bind map_outcome]; [|reflexivity].
    destruct (len _ >=? min_chars self);
      cbn [timedelta_of bind map_outcome]; [|reflexivity].
    cbn [accumulated_text start_time end_time subtitles index].
    rewrite map_app. cbn [map shift_index srt.index srt.start srt.end_
                            srt.content].
    do 2 f_equal. lia.
Qed.

Lemma words_loop_shift self d ws :
  forall st,
    words_loop self ws (shift_locals d st)
    = map_outcome (shift_locals d) (words_loop self ws st).
Proof.
  induction ws as [|w ws IH]; intros st; [reflexivity|].
  cbn [words_loop]. rewrite word_body_shift.
  destruct (word_body self st w) as [st1|e]; cbn [map_outcome bind];
    [apply IH | reflexivity].
Qed.

Lemma trailing_block_shift d st :
  trailing_block (shift_locals d st) = shift_blocks d (trailing_block st).
Proof.
  unfold trailing_block, shift_blocks, shift_locals.
  cbn [accumulated_text start_time end_time subtitles index].
  destruct (truthy (accumulated_text st)); cbn [fst snd]; [|reflexivity].
  rewrite map_app. cbn [map shift_index srt.index srt.start srt.end_
                          srt.content].
  f_equal. lia.
Qed.

Lemma segment_blocks_shift self segment i d :
  segment_blocks self segment (i + d)
  = map_outcome (shift_blocks d) (segment_blocks self segment i).
Proof.
  unfold segment_blocks, _process_segment_with_words,
    _process_segment_without_words.
  destruct (seg_words segment) as [ws|]; cbn [getitem bind].
  - change (initial_locals (i + d)) with (shift_locals d (initial_locals i)).
    rewrite words_loop_shift.
    destruct (words_loop self ws (initial_locals i)) as [st|e];
      cbn [map_outcome bind]; [|reflexivity].
    now rewrite trailing_block_shift.
  - destruct (seg_start segment); cbn [getitem bind map_outcome];
      [|reflexivity].
    destruct (seg_end segment); cbn [getitem bind map_outcome];
      [|reflexivity].
    unfold shift_blocks; cbn. do 2 f_equal. lia.
Qed.

Lemma segments_loop_from self segs subs i :
  segments_loop self segs subs i
  = map_outcome (app subs) (segments_loop self segs [] i).
Proof.
  rewrite !segments_loop_grouped.
  destruct (grouped self segs i); reflexivity.
Qed.

Lemma segments_loop_shift self d segs :
  forall i,
    segments_loop self segs [] (i + d)
    = map_outcome (map (shift_index d)) (segments_loop self segs [] i).
Proof.
  induction segs as [|seg segs IH]; intros i; [reflexivity|].
  rewrite !segments_loop_cons, segment_blocks_shift.
  destruct (segment_blocks self seg i) as [[bs i']|e];
    cbn [map_outcome bind shift_blocks fst snd app]; [|reflexivity].
  rewrite (segments_loop_from self segs (map (shift_index d) bs)).
  rewrite (segments_loop_from self segs bs), IH.
  destruct (segments_loop self segs [] i'); cbn [map_outcome];
    [|reflexivity].
  now rewrite map_app.
Qed.

Lemma segments_loop_app self (a b : list Segment) :
  forall i,
    segments_loop self (a ++ b) [] i
    = (out_a <- segments_loop self a [] i ;;
       out_b <- segments_loop self b []
                  (i + Z.of_nat (List.length out_a)) ;;
       Ok (out_a ++ out_b)).
Proof.
  induction a as [|seg a IH]; intros i.
  - cbn [app segments_loop bind List.length]. rewrite Z.add_0_r.
    now destruct (segments_loop self b [] i).
  - cbn [app]. rewrite !segments_loop_cons.
    destruct (segment_blocks self seg i) as [[bs i']|e] eqn:Hseg;
      cbn [bind app]; [|reflexivity].
    apply segment_blocks_numbered in Hseg as [_ ->].
    rewrite (segments_loop_from self (a ++ b) bs), IH.
    rewrite (segments_loop_from self a bs).
    destruct (segments_loop self a [] (i + Z.of_nat (List.length bs)))
      as [out_a|e]; cbn [map_outcome bind]; [|reflexivity].
    rewrite length_app, Nat2Z.inj_add, Z.add_assoc.
    destruct (segments_loop self b [] _); cbn [map_outcome bind];
      [|reflexivity].
    now rewrite app_assoc.
Qed.

(** X10. Processing two results one after the other as a single result
    gives the blocks of the first followed by the blocks of the second,
    these renumbered to follow on; an exception of the first, or else of the
    second, is the exception of the whole.  So a segment gives the same
    times and contents wherever it stands in the result. *)
Theorem concatenated_results self (a b : list Segment) :
  process_transcription self {| segments := Some (a ++ b) |}
  = (out_a <- process_transcription self {| segments := Some a |} ;;
     out_b <- process_transcription self {| segments := Some b |} ;;
     Ok (out_a
         ++ map (shift_index (Z.of_nat (List.length out_a))) out_b)).
Proof.
  unfold process_transcription; cbn [segments get].
  rewrite segments_loop_app.
  destruct (segments_loop self a [] 1) as [out_a|e]; cbn [bind];
    [|reflexivity].
  rewrite segments_loop_shift.
  now destruct (segments_loop self b [] 1).
Qed.

(** * The typed pass and the raw pass *)

(** ** Agreement on typed input in range *)

Lemma raw_timedelta_of (x : option Q) :
  range_ok x = true -> Raw.timedelta_of x = timedelta_of x.
Proof.
  destruct x as [v|]; simpl; [|reflexivity]. now intros ->.
Qed.

Lemma raw_word_body self st w :
  state_in_range st -> word_in_range w = true ->
  Raw.word_body self st (raw_word w) = word_body self st w.
Proof.
  intros [Hs _] Hw. unfold word_in_range in Hw.
  apply andb_prop in Hw as [Hws Hwe].
  unfold Raw.word_body, word_body, raw_word.
  cbn [Raw.w_text Raw.w_start Raw.w_end].
  destruct (truthy (strip (get (w_text w) []))); cbn [negb]; [|reflexivity].
  destruct (truthy (accumulated_text st)); cbn [negb bind].
  - destruct (w_end w) as [e|]; cbn [option_map getitem bind];
      [|reflexivity].
    destruct (len _ >=? min_chars self); [|reflexivity].
    now rewrite (raw_timedelta_of _ Hs), (raw_timedelta_of (Some e) Hwe).
  - destruct (w_start w) as [s|]; cbn [option_map getitem bind];
      [|reflexivity].
    destruct (w_end w) as [e|]; cbn [option_map getitem bind];
      [|reflexivity].
    destruct (len _ >=? min_chars self); [|reflexivity].
    now rewrite (raw_timedelta_of (Some s) Hws),
      (raw_timedelta_of (Some e) Hwe).
Qed.

Lemma word_body_in_range self st w st' :
  state_in_range st -> word_in_range w = true ->
  word_body self st w = Ok st' -> state_in_range st'.
Proof.
  intros [Hs He] Hw H. unfold word_in_range in Hw.
  apply andb_prop in Hw as [Hws Hwe].
  apply word_body_Ok in H
    as [[_ ->]|(_ & e & Hend & [(_ & s & _ & ->)|(_ & _ & ->)])].
  - now split.
  - split; reflexivity.
  - unfold state_in_range, kept, next_start; cbn [start_time end_time].
    rewrite Hend in Hwe. split; [|assumption].
    now destruct (truthy (accumulated_text st)).
Qed.

Lemma raw_words_loop self ws :
  forall st,
    state_in_range st -> forallb word_in_range ws = true ->
    Raw.words_loop self (map raw_word ws) st = words_loop self ws st
    /\ forall st', words_loop self ws st = Ok st' -> state_in_range st'.
Proof.
  induction ws as [|w ws IH]; intros st Hst Hall.
  - split; [reflexivity|]. now intros st' [= <-].
  - cbn [forallb] in Hall. apply andb_prop in Hall as [Hw Hall].
    cbn [map Raw.words_loop words_loop]. rewrite raw_word_body by assumption.
    destruct (word_body self st w) as [st1|e] eqn:Hbody; cbn [bind].
    + apply IH; [|assumption]. eapply word_body_in_range; eassumption.
    + split; [reflexivity | discriminate].
Qed.

Lemma raw_trailing_block st :
  state_in_range st -> Raw.trailing_block st = Ok (trailing_block st).
Proof.
  intros [Hs He]. unfold Raw.trailing_block, trailing_block.
  destruct (truthy (accumulated_text st)); [|reflexivity].
  destruct (start_time st) as [s|]; destruct (end_time st) as [e|];
    cbn [range_ok] in Hs, He; cbn [Raw.timedelta_of];
    rewrite ?Hs, ?He; reflexivity.
Qed.

Lemma raw_segment_blocks self segment i :
  segment_in_range segment = true ->
  match seg_words segment with
  | Some _ =>
      Raw._process_segment_with_words self (raw_segment segment) i
      = _process_segment_with_words self segment i
  | None =>
      Raw._process_segment_without_words self (raw_segment segment) i
      = _process_segment_without_words self segment i
  end.
Proof.
  unfold segment_in_range.
  destruct (seg_words segment) as [ws|] eqn:Hws; intros Hrange.
  - unfold Raw._process_segment_with_words, _process_segment_with_words,
      raw_segment. cbn [Raw.seg_words]. rewrite Hws.
    cbn [option_map getitem bind].
    assert (Hinit : state_in_range (initial_locals i)) by (split; reflexivity).
    destruct (raw_words_loop self ws (initial_locals i) Hinit Hrange)
      as [-> Hend].
    destruct (words_loop self ws (initial_locals i)) as [st|e]; cbn [bind];
      [|reflexivity].
    apply raw_trailing_block. now apply Hend.
  - apply andb_prop in Hrange as [Hs He].
    unfold Raw._process_segment_without_words,
      _process_segment_without_words, raw_segment.
    cbn [Raw.seg_start Raw.seg_end Raw.seg_text].
    destruct (seg_start segment) as [s|]; cbn [option_map getitem bind];
      [|reflexivity].
    cbn [range_ok] in Hs. cbn [Raw.timedelta_of]. rewrite Hs. cbn [bind].
    destruct (seg_end segment) as [e|]; cbn [option_map getitem bind];
      [|reflexivity].
    cbn [range_ok] in He. cbn [Raw.timedelta_of]. rewrite He. reflexivity.
Qed.

Lemma raw_segments_loop self segs :
  forall subs i,
    forallb segment_in_range segs = true ->
    Raw.segments_loop self (map raw_segment segs) subs i
    = segments_loop self segs subs i.
Proof.
  induction segs as [|seg segs IH]; intros subs i Hall; [reflexivity|].
  cbn [forallb] in Hall. apply andb_prop in Hall as [Hseg Hall].
  cbn [map Raw.segments_loop segments_loop].
  pose proof (raw_segment_blocks self seg i Hseg) as Hblocks.
  unfold raw_segment at 1. cbn [Raw.seg_words].
  destruct (seg_words seg) as [ws|]; cbn [option_map]; rewrite Hblocks.
  - destruct (_process_segment_with_words self seg i) as [[bs i']|e];
      cbn [bind]; [now apply IH | reflexivity].
  - destruct (_process_segment_without_words self seg i) as [b|e];
      cbn [bind]; [now apply IH | reflexivity].
Qed.

(** On a typed result whose numbers are within the range of [timedelta],
    the raw pass is the typed pass. *)
Lemma raw_process_transcription self result :
  in_range result = true ->
  Raw.process_transcription self (raw_result result)
  = process_transcription self result.
Proof.
  unfold in_range, Raw.process_transcription, process_transcription,
    raw_result. cbn [Raw.segments]. intros Hrange.
  destruct (segments result) as [segs|]; cbn [option_map get] in *;
    [|reflexivity].
  now apply raw_segments_loop.
Qed.

(** ** The threshold, by kind of segment *)

(** C2, as amended. In the output of [process_transcription], every block
    of a word-level segment other than the last block of that segment has
    at least [min_chars] characters, and the comparison is [>=]: the blocks
    of the segment are those of consecutive runs of its unskipped words,
    each run closed at the first word with which the accumulated text
    reaches [min_chars], so that a run without its last word is shorter than
    [min_chars].  The block of a flat segment holds the trimmed text of the
    segment, whatever its length. *)
Theorem threshold_of_word_segments self result subs :
  process_transcription self result = Ok subs ->
  exists groups,
    grouped self (get (segments result) []) 1 = Ok groups
    /\ subs = blocks_of groups
    /\ map fst groups = get (segments result) []
    /\ threshold_in_word_segments self groups
    /\ forall segment bs,
         In (segment, bs) groups -> threshold_by_kind self segment bs.
Proof.
  intros H. apply process_transcription_Ok in H as (groups & Hg & ->).
  exists groups. split; [assumption|]. split; [reflexivity|].
  split; [eapply grouped_fst; eassumption|]. split.
  - intros segment bs Hin Hwords.
    destruct (grouped_In _ _ _ _ _ _ Hg Hin) as (j & j' & Hseg).
    unfold segment_blocks in Hseg.
    destruct (seg_words segment) as [ws|]; [|congruence].
    eapply with_words_threshold; eassumption.
  - intros segment bs Hin.
    destruct (grouped_In _ _ _ _ _ _ Hg Hin) as (j & j' & Hseg).
    unfold segment_blocks in Hseg. unfold threshold_by_kind.
    destruct (seg_words segment) as [ws|] eqn:Hws.
    + split; [eapply with_words_threshold; eassumption|].
      destruct (with_words_groups self segment ws j bs j' Hws Hseg)
        as (runs & Hcat & Hblocks & Hgreedy & _).
      exists runs. now repeat split.
    + apply bind_Ok in Hseg as (b & Hb & [= <- _]).
      apply without_words_content in Hb. exists b. now split.
Qed.

Lemma threshold_of_word_segments_witness :
  exists groups,
    grouped (transcriber 6) [hi_there_friend; flat_segment 2.0 4.0 " Hi "] 1
    = Ok groups
    /\ [block 1 0.0 1.0 "Hi there"; block 2 1.0 1.6 "friend";
        block 3 2.0 4.0 "Hi"] = blocks_of groups
    /\ map fst groups = [hi_there_friend; flat_segment 2.0 4.0 " Hi "]
    /\ threshold_in_word_segments (transcriber 6) groups
    /\ forall segment bs,
         In (segment, bs) groups ->
         threshold_by_kind (transcriber 6) segment bs.
Proof.
  apply (threshold_of_word_segments (transcriber 6)
           {| segments :=
                Some [hi_there_friend; flat_segment 2.0 4.0 " Hi "] |}).
  vm_compute; reflexivity.
Defined.

(** ** Absent keys, [None] and the range of [timedelta] *)

(** C8, as amended. On a result in which every "start" and "end" that is
    present is a number within the range of [timedelta]: when every word and
    every flat segment has both keys, [process_transcription] returns a
    list; it raises [KeyError], and returns nothing, exactly when the pass
    reads an absent key ("start" or "end" of a flat segment, "end" of a word
    that is not skipped, "start" of such a word while the accumulator is
    empty), and returns a list in every other case. *)
Theorem field_access_failures self result :
  in_range result = true ->
  (well_formed result = true ->
   exists subs,
     Raw.process_transcription self (raw_result result) = Ok subs)
  /\ (result_reads_missing_key self result = true ->
      exists key,
        Raw.process_transcription self (raw_result result)
        = Raise (KeyError key))
  /\ (result_reads_missing_key self result = false ->
      exists subs,
        Raw.process_transcription self (raw_result result) = Ok subs).
Proof.
  intros Hrange. rewrite (raw_process_transcription self result Hrange).
  apply typed_field_access.
Qed.

Lemma field_access_failures_witness :
  (exists subs,
      Raw.process_transcription (transcriber 10)
        (raw_result {| segments := Some [hi_there_friend] |}) = Ok subs)
  /\ (exists key,
        Raw.process_transcription (transcriber 10)
          (raw_result
             {| segments := Some [word_segment [no_start "Hi" 0.5]] |})
        = Raise (KeyError key))
  /\ (exists subs,
        Raw.process_transcription (transcriber 10)
          (raw_result hi_there_without_start) = Ok subs).
Proof.
  split; [|split].
  - apply (proj1 (field_access_failures (transcriber 10)
                    {| segments := Some [hi_there_friend] |} eq_refl)).
    reflexivity.
  - apply (proj1 (proj2 (field_access_failures (transcriber 10)
                    {| segments := Some [word_segment [no_start "Hi" 0.5]] |}
                    eq_refl))).
    reflexivity.
  - apply (proj2 (proj2 (field_access_failures (transcriber 10)
                           hi_there_without_start eq_refl))).
    reflexivity.
Defined.

(** C8, as stated, fails on both halves.  A flat segment with both keys,
    that starts 10^15 seconds in, raises [OverflowError]; a word with both
    keys bound to [None] raises [TypeError] when its block is flushed; and
    the word "there" below is not skipped (its text and its end time are in
    the block) and has no "start", yet a list is returned. *)
Lemma keys_present_is_not_enough :
  (Raw.well_formed {| Raw.segments := Some [far_flat] |} = true
   /\ Raw.process_transcription (transcriber 10)
        {| Raw.segments := Some [far_flat] |} = Raise OverflowError)
  /\ (Raw.well_formed
        {| Raw.segments := Some [raw_word_segment [none_word "Hi"]] |} = true
      /\ Raw.process_transcription (transcriber 2)
           {| Raw.segments := Some [raw_word_segment [none_word "Hi"]] |}
         = Raise TypeError)
  /\ ((exists w,
          In w [word "Hi" 0.0 0.5; no_start "there" 1.0]
          /\ used w = true /\ w_start w = None)
      /\ Raw.process_transcription (transcriber 10)
           (raw_result hi_there_without_start)
         = Ok [block 1 0.0 1.0 "Hi there"]).
Proof.
  split; [split; vm_compute; reflexivity|].
  split; [split; vm_compute; reflexivity|].
  split; [|vm_compute; reflexivity].
  exists (no_start "there" 1.0). split; [right; now left|].
  split; reflexivity.
Qed.

(** ** The invariant of the accumulator *)

Lemma raw_next_text_nonempty st w :
  Raw.used w = true -> Raw.next_text st w <> [].
Proof.
  intros Hu. unfold Raw.next_text.
  destruct (truthy (accumulated_text st)) eqn:Hacc.
  - apply truthy_true in Hacc.
    destruct (accumulated_text st); simpl; congruence.
  - now apply truthy_true.
Qed.

(** Every way an iteration of the raw pass can complete: the word is
    skipped, the block is flushed, or the word is kept. *)
Lemma raw_word_body_Ok self st w st' :
  Raw.word_body self st w = Ok st' ->
  (Raw.used w = false /\ st' = st)
  \/ (Raw.used w = true /\ exists ev, Raw.w_end w = Some ev /\
      (accumulated_text st = [] -> exists sv, Raw.w_start w = Some sv) /\
      ((accumulated_text st' = [] /\ start_time st' = None
        /\ end_time st' = None)
       \/ st' = Raw.kept st w ev)).
Proof.
  unfold Raw.word_body, Raw.used, Raw.kept, Raw.next_text, Raw.next_start.
  destruct (truthy (strip (get (Raw.w_text w) []))) eqn:Hu; cbn [negb].
  2:{ intros [= <-]; left; split; reflexivity. }
  intros H; right; split; [reflexivity|].
  destruct (truthy (accumulated_text st)) eqn:Hacc; cbn [negb bind] in H.
  - destruct (Raw.w_end w) as [ev|]; cbn [getitem bind] in H;
      [|discriminate].
    exists ev; split; [reflexivity|]. split.
    { intros Heq; rewrite Heq in Hacc; discriminate. }
    destruct (len _ >=? min_chars self).
    + left. apply bind_Ok in H as (t1 & _ & H).
      apply bind_Ok in H as (t2 & _ & [= <-]). now repeat split.
    + right. now injection H as <-.
  - destruct (Raw.w_start w) as [sv|]; cbn [getitem bind] in H;
      [|discriminate].
    destruct (Raw.w_end w) as [ev|]; cbn [getitem bind] in H;
      [|discriminate].
    exists ev; split; [reflexivity|]. split; [eauto|].
    destruct (len _ >=? min_chars self).
    + left. apply bind_Ok in H as (t1 & _ & H).
      apply bind_Ok in H as (t2 & _ & [= <-]). now repeat split.
    + right. now injection H as <-.
Qed.

Lemma raw_times_from_snoc pre w st :
  Raw.times_from pre st -> Raw.times_from (pre ++ [w]) st.
Proof.
  intros [Hs He]. split.
  - intros s H. destruct (Hs s H) as (w0 & Hin & Hrest).
    exists w0. split; [apply in_or_app; now left | assumption].
  - intros e H. destruct (He e H) as (w0 & Hin & Hrest).
    exists w0. split; [apply in_or_app; now left | assumption].
Qed.

Lemma raw_word_body_accumulator self pre st w st' :
  Raw.numeric w ->
  accumulator_invariant st /\ Raw.times_from pre st ->
  Raw.word_body self st w = Ok st' ->
  accumulator_invariant st' /\ Raw.times_from (pre ++ [w]) st'.
Proof.
  intros Hnum [[Hiff Hend] Htimes] H.
  apply raw_word_body_Ok in H
    as [[_ ->]|(Hu & ev & Hev & Hsv & [(Ha & Hs & He)| ->])].
  - split; [split; assumption | now apply raw_times_from_snoc].
  - split; [split; [split|]; congruence|].
    split; [intros s | intros e]; congruence.
  - destruct (Hnum Hu) as [Hstart Hfin].
    assert (Hlast : In w (pre ++ [w])) by (apply in_or_app; right; now left).
    assert (Htext : Raw.next_text st w <> [])
      by now apply raw_next_text_nonempty.
    destruct ev as [e|]; [|congruence].
    unfold Raw.kept, Raw.next_start.
    destruct (truthy (accumulated_text st)) eqn:Hacc.
    + apply truthy_true in Hacc.
      split; [split; [split|]|split]; cbn.
      * intros _. now apply Hiff.
      * intros _. exact Htext.
      * discriminate.
      * apply (raw_times_from_snoc pre w st Htimes).
      * intros e0 [= <-]. eauto.
    + apply truthy_false in Hacc. destruct (Hsv Hacc) as (sv & Hw).
      destruct sv as [s|]; [|congruence]. rewrite Hw.
      split; [split; [split|]|split]; cbn.
      * discriminate.
      * intros _. exact Htext.
      * discriminate.
      * intros s0 [= <-]. eauto.
      * intros e0 [= <-]. eauto.
Qed.

Lemma raw_words_loop_accumulator self ws :
  forall pre st st',
    Forall Raw.numeric ws ->
    accumulator_invariant st /\ Raw.times_from pre st ->
    Raw.words_loop self ws st = Ok st' ->
    accumulator_invariant st' /\ Raw.times_from (pre ++ ws) st'.
Proof.
  induction ws as [|w ws IH]; intros pre st st' Hnum Hinv; simpl.
  - intros [= <-]. now rewrite app_nil_r.
  - intros H. apply bind_Ok in H as (st1 & Hbody & Hloop).
    apply Forall_cons_iff in Hnum as [Hw Hnum].
    replace (pre ++ w :: ws) with ((pre ++ [w]) ++ ws)
      by now rewrite <- app_assoc.
    eapply IH; [assumption | | eassumption].
    eapply raw_word_body_accumulator; eassumption.
Qed.

Lemma Forall_firstn {A : Type} (P : A -> Prop) (k : nat) (l : list A) :
  Forall P l -> Forall P (firstn k l).
Proof.
  intros Hall. revert k. induction Hall as [|x l Hx _ IH]; intros k.
  - rewrite firstn_nil. constructor.
  - destruct k; simpl; [constructor | now constructor].
Qed.

Lemma initial_accumulator i :
  accumulator_invariant (initial_locals i)
  /\ Raw.times_from [] (initial_locals i).
Proof.
  split; [split; [split|]|split]; cbn; congruence.
Qed.

(** C10, as amended. On a segment in which no unskipped word has "start"
    or "end" bound to [None], after any number of iterations of the
    accumulation loop the accumulator is non-empty exactly when a start time
    is recorded, and then an end time is recorded too.  So when the loop
    ends with a non-empty accumulator the trailing block does not take the
    zero-duration fallback: its start and its end are [timedelta] of the
    start and of the end of words of the segment that were not skipped. *)
Theorem accumulator_has_its_times self ws i :
  Forall Raw.numeric ws ->
  (forall k st,
      Raw.words_loop self (firstn k ws) (initial_locals i) = Ok st ->
      accumulator_invariant st)
  /\ (forall st,
        Raw.words_loop self ws (initial_locals i) = Ok st ->
        accumulated_text st <> [] ->
        exists s e,
          start_time st = Some s /\ end_time st = Some e
          /\ (exists w, In w ws /\ Raw.used w = true
                        /\ Raw.w_start w = Some (Some s))
          /\ (exists w, In w ws /\ Raw.used w = true
                        /\ Raw.w_end w = Some (Some e))
          /\ Raw.trailing_block st
             = (start_td <- Raw.timedelta_of (Some s) ;;
                end_td <- Raw.timedelta_of (Some e) ;;
                Ok (subtitles st
                    ++ [srt.mk (index st) start_td end_td
                          (accumulated_text st)],
                    index st + 1))).
Proof.
  intros Hnum. split.
  - intros k st Hloop.
    apply (raw_words_loop_accumulator self (firstn k ws) [] _ _
             (Forall_firstn _ k ws Hnum) (initial_accumulator i)) in Hloop.
    apply Hloop.
  - intros st Hloop Hacc.
    apply (raw_words_loop_accumulator self ws [] _ _ Hnum
             (initial_accumulator i)) in Hloop.
    destruct Hloop as [[Hiff Hend] [Hs He]]. cbn [app] in Hs, He.
    destruct (start_time st) as [s|] eqn:Hstart;
      [|now apply Hiff in Hacc].
    destruct (end_time st) as [e|] eqn:Hfin; [|now apply Hend in Hacc].
    exists s, e. split; [reflexivity|]. split; [reflexivity|].
    split; [now apply Hs|]. split; [now apply He|].
    unfold Raw.trailing_block. apply truthy_true in Hacc.
    now rewrite Hacc, Hstart, Hfin.
Qed.

Lemma accumulator_has_its_times_witness :
  accumulator_invariant
    {| subtitles := []; accumulated_text := py "Hi there";
       start_time := Some 0.0%Q; end_time := Some 1.0%Q; index := 1 |}
  /\ exists s e,
      Some 0.0%Q = Some s /\ Some 1.0%Q = Some e
      /\ (exists w,
             In w [raw_word (word "Hi" 0.0 0.5);
                   raw_word (word "there" 0.5 1.0)]
             /\ Raw.used w = true /\ Raw.w_start w = Some (Some s))
      /\ (exists w,
             In w [raw_word (word "Hi" 0.0 0.5);
                   raw_word (word "there" 0.5 1.0)]
             /\ Raw.used w = true /\ Raw.w_end w = Some (Some e))
      /\ Raw.trailing_block
           {| subtitles := []; accumulated_text := py "Hi there";
              start_time := Some 0.0%Q; end_time := Some 1.0%Q; index := 1 |}
         = (start_td <- Raw.timedelta_of (Some s) ;;
            end_td <- Raw.timedelta_of (Some e) ;;
            Ok ([] ++ [srt.mk 1 start_td end_td (py "Hi there")], 1 + 1)).
Proof.
  assert (Hnum : forall ws,
             Forall (fun w => Raw.w_start w <> Some None
                              /\ Raw.w_end w <> Some None) ws ->
             Forall Raw.numeric ws).
  { intros ws. apply Forall_impl. intros w Hw _. exact Hw. }
  split.
  - apply (proj1 (accumulator_has_its_times (transcriber 10)
                    [raw_word (word "Hi" 0.0 0.5);
                     raw_word (word "there" 0.5 1.0);
                     raw_word (word "friend" 1.0 1.6)] 1
                    ltac:(apply Hnum; repeat constructor; discriminate))
             2%nat).
    vm_compute; reflexivity.
  - apply (proj2 (accumulator_has_its_times (transcriber 10)
                    [raw_word (word "Hi" 0.0 0.5);
                     raw_word (word "there" 0.5 1.0)] 1
                    ltac:(apply Hnum; repeat constructor; discriminate))
             {| subtitles := []; accumulated_text := py "Hi there";
                start_time := Some 0.0%Q; end_time := Some 1.0%Q;
                index := 1 |}).
    + vm_compute; reflexivity.
    + cbn; discriminate.
Defined.

(** C10, as stated, fails: with [min_chars] 10, a word "Hi" whose "start"
    and "end" are bound to [None] leaves the accumulator non-empty with no
    start time recorded, and the trailing block takes the zero-duration
    fallback for both of its times. *)
Lemma zero_duration_fallback_is_reached :
  exists st,
    Raw.words_loop (transcriber 10) [none_word "Hi"] (initial_locals 1)
    = Ok st
    /\ accumulated_text st <> []
    /\ start_time st = None
    /\ ~ accumulator_invariant st
    /\ Raw._process_segment_with_words (transcriber 10)
         (raw_word_segment [none_word "Hi"]) 1
       = Ok ([srt.mk 1 timedelta_zero timedelta_zero (py "Hi")], 2).
Proof.
  exists {| subtitles := []; accumulated_text := py "Hi";
            start_time := None; end_time := None; index := 1 |}.
  split; [vm_compute; reflexivity|]. split; [cbn; discriminate|].
  split; [reflexivity|]. split; [|vm_compute; reflexivity].
  intros [[Hiff _] _]. cbn in Hiff. apply Hiff; [discriminate | reflexivity].
Qed.

(** ** The exceptions of the raw pass *)

Lemma raw_timedelta_of_Raise x e :
  Raw.timedelta_of x = Raise e -> start_or_end e.
Proof.
  unfold Raw.timedelta_of. destruct x as [v|].
  - destruct (representable (timedelta_seconds v)); [discriminate|].
    now intros [= <-].
  - now intros [= <-].
Qed.

Lemma getitem_start_Raise {A : Type} (field : option A) e :
  getitem "start" field = Raise e -> start_or_end e.
Proof.
  destruct field; simpl; [discriminate|]. intros [= <-]. now left.
Qed.

Lemma getitem_end_Raise {A : Type} (field : option A) e :
  getitem "end" field = Raise e -> start_or_end e.
Proof.
  destruct field; simpl; [discriminate|]. intros [= <-]. now right.
Qed.

Lemma bind_Raise {A B : Type} (m : outcome A) (k : A -> outcome B) e :
  bind m k = Raise e -> m = Raise e \/ exists a, m = Ok a /\ k a = Raise e.
Proof.
  destruct m as [a|e1]; simpl; [eauto|]. intros [= <-]. now left.
Qed.

Lemma raw_word_body_Raise self st w e :
  Raw.word_body self st w = Raise e -> start_or_end e.
Proof.
  unfold Raw.word_body.
  destruct (truthy (strip (get (Raw.w_text w) []))); cbn [negb];
    [|discriminate].
  intros H. apply bind_Raise in H as [H|(sv & _ & H)].
  - destruct (truthy (accumulated_text st)); cbn [negb] in H;
      [discriminate | eapply getitem_start_Raise; eassumption].
  - apply bind_Raise in H as [H|(ev & _ & H)];
      [eapply getitem_end_Raise; eassumption|].
    destruct (len _ >=? min_chars self); [|discriminate].
    apply bind_Raise in H as [H|(t1 & _ & H)];
      [eapply raw_timedelta_of_Raise; eassumption|].
    apply bind_Raise in H as [H|(t2 & _ & H)];
      [eapply raw_timedelta_of_Raise; eassumption | discriminate].
Qed.

Lemma raw_words_loop_Raise self ws :
  forall st e, Raw.words_loop self ws st = Raise e -> start_or_end e.
Proof.
  induction ws as [|w ws IH]; intros st e; simpl; [discriminate|].
  intros H. apply bind_Raise in H as [H|(st1 & _ & H)].
  - eapply raw_word_body_Raise; eassumption.
  - eapply IH; eassumption.
Qed.

Lemma raw_trailing_block_Raise st e :
  Raw.trailing_block st = Raise e -> start_or_end e.
Proof.
  unfold Raw.trailing_block.
  destruct (truthy (accumulated_text st)); [|discriminate].
  intros H. apply bind_Raise in H as [H|(t1 & _ & H)].
  - destruct (start_time st); [|discriminate].
    eapply raw_timedelta_of_Raise; eassumption.
  - apply bind_Raise in H as [H|(t2 & _ & H)]; [|discriminate].
    destruct (end_time st); [|discriminate].
    eapply raw_timedelta_of_Raise; eassumption.
Qed.

Lemma raw_segments_loop_Raise self segs :
  forall subs i e,
    Raw.segments_loop self segs subs i = Raise e -> start_or_end e.
Proof.
  induction segs as [|seg segs IH]; intros subs i e; [discriminate|].
  cbn [Raw.segments_loop].
  destruct (Raw.seg_words seg) as [ws|] eqn:Hws; intros H.
  - apply bind_Raise in H as [H|([bs i'] & _ & H)];
      [|eapply IH; eassumption].
    unfold Raw._process_segment_with_words in H. rewrite Hws in H.
    cbn [getitem bind] in H.
    apply bind_Raise in H as [H|(st & _ & H)].
    + eapply raw_words_loop_Raise; eassumption.
    + eapply raw_trailing_block_Raise; eassumption.
  - apply bind_Raise in H as [H|(b & _ & H)]; [|eapply IH; eassumption].
    unfold Raw._process_segment_without_words in H.
    apply bind_Raise in H as [H|(sv & _ & H)];
      [eapply getitem_start_Raise; eassumption|].
    apply bind_Raise in H as [H|(t1 & _ & H)];
      [eapply raw_timedelta_of_Raise; eassumption|].
    apply bind_Raise in H as [H|(ev & _ & H)];
      [eapply getitem_end_Raise; eassumption|].
    apply bind_Raise in H as [H|(t2 & _ & H)];
      [eapply raw_timedelta_of_Raise; eassumption | discriminate].
Qed.

(** X9. A [KeyError] raised by [process_transcription] is that of "start"
    or that of "end": an absent "segments", "words" or "text" raises
    nothing.  On a result in which every "start" and "end" that is present
    is a number within the range of [timedelta], these two are the only
    exceptions: [timedelta] is never given [None] and never overflows. *)
Theorem key_errors_are_start_or_end self :
  (forall r key,
      Raw.process_transcription self r = Raise (KeyError key) ->
      key = "start"%string \/ key = "end"%string)
  /\ (forall result e,
        in_range result = true ->
        Raw.process_transcription self (raw_result result) = Raise e ->
        e = KeyError "start" \/ e = KeyError "end").
Proof.
  split.
  - intros r key H.
    apply (raw_segments_loop_Raise self _ _ _ (KeyError key) H).
  - intros result e Hrange H.
    rewrite (raw_process_transcription self result Hrange) in H.
    eapply segments_loop_Raise; eassumption.
Qed.

Lemma key_errors_are_start_or_end_witness :
  ("end"%string = "start"%string \/ "end"%string = "end"%string)
  /\ (KeyError "start" = KeyError "start"
      \/ KeyError "start" = KeyError "end").
Proof.
  split.
  - apply (proj1 (key_errors_are_start_or_end (transcriber 10))
             {| Raw.segments :=
                  Some [raw_word_segment
                          [{| Raw.w_text := Some (py "Hi");
                              Raw.w_start := Some None;
                              Raw.w_end := None |}]] |}).
    vm_compute; reflexivity.
  - apply (proj2 (key_errors_are_start_or_end (transcriber 10))
             {| segments :=
                  Some [hi_there_friend; word_segment [no_start "Hi" 0.5]] |}
             (KeyError "start") eq_refl).
    vm_compute; reflexivity.
Defined.
